(** * webcheck: the concurrent resolution and probe engine

    A shallow embedding of [resolveOne] and [resolveAll] of [main.go].

    - The network ([net.LookupHost], [net.DialTimeout], [conn.Close]) and the
      Go runtime's choice of a map iteration order are an environment: state
      transformers over an abstract [World].
    - [resolveOne] is a computation in a state monad over [World] that also
      logs every call it makes to the environment.
    - [resolveAll] is a transition system: the dispatcher goroutine, one
      worker goroutine per host, the buffered channel [rc], the
      [sync.WaitGroup] and the consumer that ranges over the channel. *)

From Stdlib Require Import Ascii.
From stdpp Require Import gmap strings list fin_maps.

Local Open Scope Z_scope.

(** * Part I: the program *)

(** ** Durations ([time.Duration] is an int64 count of nanoseconds) *)

Definition Duration : Type := Z.
Definition Second : Duration := 1000000000.

(** ** hostInfo *)

Record hostInfo (error : Type) : Type := HostInfo {
  name : string;
  addrs : list string;
  ports : list string;
  err : option error;
}.
Arguments HostInfo {error} _ _ _ _.
Arguments name {error} _.
Arguments addrs {error} _.
Arguments ports {error} _.
Arguments err {error} _.

(** ** The environment *)

(** What [resolveOne] asks of the outside world.  [Conn + error] stands for
    Go's [(Conn, error)] result of a dial; [net.LookupHost] keeps its two
    results apart because [resolveOne] stores both of them. *)
Record Net (World error Conn : Type) : Type := {
  net_LookupHost : string → World → (list string * option error) * World;
  net_DialTimeout : string → string → Duration → World → (Conn + error) * World;
  conn_Close : Conn → World → World;
  (* the random start the runtime draws for one [range] over a map *)
  runtime_rand : World → nat * World;
}.
Arguments net_LookupHost {World error Conn} _ _ _.
Arguments net_DialTimeout {World error Conn} _ _ _ _ _.
Arguments conn_Close {World error Conn} _ _ _.
Arguments runtime_rand {World error Conn} _ _.

(** The calls a goroutine makes, in the order it makes them. *)
Inductive event : Type :=
  | EvLookupHost (host : string)
  | EvDialTimeout (network address : string) (timeout : Duration) (connected : bool)
  | EvClose.

Definition dial_address (e : event) : option string :=
  match e with EvDialTimeout _ a _ _ => Some a | _ => None end.


(** ** The monad of [resolveOne]: state over the world, writer over events *)

Definition M (World A : Type) : Type := World → A * World * list event.

Section Monad.
Context {World : Type}.

Definition ret {A} (x : A) : M World A := λ w, (x, w, []).

Definition bind {A B} (m : M World A) (k : A → M World B) : M World B :=
  λ w, let '(x, w1, t1) := m w in
       let '(y, w2, t2) := k x w1 in
       (y, w2, t1 ++ t2).

(** [for _, x := range l { s = body x s }] *)
Fixpoint for_range {A S} (l : list A) (body : A → S → M World S) (s : S)
    : M World S :=
  match l with
  | [] => ret s
  | x :: l' => bind (body x s) (for_range l' body)
  end.
End Monad.

Notation "x <- m ;; k" := (bind m (λ x, k))
  (at level 100, m at next level, right associativity).

(** ** Iterating over a Go map *)

(** Go leaves the order of [range] over a map unspecified; every entry
    present when the loop starts and not deleted is produced exactly once.
    The order is some permutation of the keys, picked by [seed]. *)
Definition range_order (seed : nat) (ks : list string) : list string :=
  let ps := permutations ks in
  default ks (ps !! (seed `mod` length ps)%nat).

Definition map_keys (m : gmap string bool) : list string := elements (dom m).

(** [m[k]] on a [map[string]bool]: a missing key reads as [false]. *)
Definition map_index (m : gmap string bool) (k : string) : bool :=
  default false (m !! k).

Section Resolver.
Context {World error Conn : Type}.
Variable net : Net World error Conn.

Definition LookupHost (host : string) : M World (list string * option error) :=
  λ w, let '(r, w') := net_LookupHost net host w in (r, w', [EvLookupHost host]).

Definition connected (r : Conn + error) : bool :=
  match r with inl _ => true | inr _ => false end.

Definition DialTimeout (network address : string) (timeout : Duration)
    : M World (Conn + error) :=
  λ w, let '(r, w') := net_DialTimeout net network address timeout w in
       (r, w', [EvDialTimeout network address timeout (connected r)]).

Definition Close (c : Conn) : M World unit :=
  λ w, (tt, conn_Close net c w, [EvClose]).

Definition range_keys (m : gmap string bool) : M World (list string) :=
  λ w, let '(seed, w') := runtime_rand net w in
       (range_order seed (map_keys m), w', []).

(** The body of the inner loop of [resolveOne]: one probe. *)
Definition probe (a : string) (timeout : Duration) (p : string)
    (ports : gmap string bool) : M World (gmap string bool) :=
  r <- DialTimeout "tcp" (a +:+ ":" +:+ p) timeout ;;
  match r with
  | inr _ => ret ports
  | inl conn => _ <- Close conn ;; ret (<[p := true]> ports)
  end.

(** The loop over the resolved addresses. *)
Definition probe_all (al : list string) (timeout : Duration)
    (ports : gmap string bool) : M World (gmap string bool) :=
  for_range al
    (λ a ports, ks <- range_keys ports ;; for_range ks (probe a timeout) ports)
    ports.

(** The de-duplicating loop at the end of [resolveOne]. *)
Definition collect (m : gmap string bool) (ks : list string)
    (hi : hostInfo error) : hostInfo error :=
  foldl (λ hi p,
           if map_index m p
           then HostInfo (name hi) (addrs hi) (ports hi ++ [p]) (err hi)
           else hi) hi ks.

Definition resolveOne (host : string) : M World (hostInfo error) :=
  r <- LookupHost host ;;
  let hi := HostInfo host r.1 [] r.2 in
  match err hi with
  | Some _ => ret hi
  | None =>
      let ports : gmap string bool := <["80" := false]> (<["443" := false]> ∅) in
      let timeout : Duration := Second * 3 in
      ports <- probe_all (addrs hi) timeout ports ;;
      ks <- range_keys ports ;;
      ret (collect ports ks hi)
  end.
End Resolver.

(** ** resolveAll: the goroutines, the channel and the WaitGroup *)

(** Where the dispatcher goroutine (the outer [go func]) stands. *)
Inductive dispatcher : Type :=
  | DLoop (rest : list string)            (* head of the [for] loop, [rest] to go *)
  | DGo (h : string) (rest : list string) (* after [wg.Add(1)], before [go] *)
  | DWait                                 (* at [wg.Wait()] *)
  | DClose                                (* at [close(rc)] *)
  | DExit.

(** Where a worker goroutine (the inner [go func], with its own [h]) stands. *)
Inductive worker (error : Type) : Type :=
  | WResolve (h : string)                     (* before [resolveOne(h)] *)
  | WSend (h : string) (hi : hostInfo error)  (* before [rc <- hi] *)
  | WDone (h : string)                        (* before [wg.Done()] *)
  | WExit (h : string).
Arguments WResolve {error} _.
Arguments WSend {error} _ _.
Arguments WDone {error} _.
Arguments WExit {error} _.

(** The reader of the channel: [for r := range rc]. *)
Inductive consumer : Type :=
  | CRange   (* in the loop *)
  | CExit.   (* saw the channel closed and drained *)

Record state (World error : Type) : Type := State {
  st_world : World;
  st_trace : list event;                (* the calls made so far *)
  st_disp : dispatcher;
  st_workers : list (worker error);     (* in the order they were started *)
  st_wg : Z;                            (* the counter of [wg] *)
  st_chan : list (hostInfo error);      (* the buffer of [rc], oldest first *)
  st_closed : bool;                     (* [rc] closed *)
  st_recv : list (hostInfo error);      (* what the reader got, oldest first *)
  st_cons : consumer;
  st_panic : bool;                      (* a goroutine panicked *)
}.
Arguments State {World error} _ _ _ _ _ _ _ _ _ _.
Arguments st_world {World error} _.
Arguments st_trace {World error} _.
Arguments st_disp {World error} _.
Arguments st_workers {World error} _.
Arguments st_wg {World error} _.
Arguments st_chan {World error} _.
Arguments st_closed {World error} _.
Arguments st_recv {World error} _.
Arguments st_cons {World error} _.
Arguments st_panic {World error} _.

(** Which goroutine the scheduler runs next. *)
Inductive label : Type :=
  | LDisp
  | LWorker (i : nat)
  | LCons.

(** [make(chan *hostInfo, 1<<10)] *)
Definition rc_cap : nat := Z.to_nat (Z.shiftl 1 10).

Section ResolveAll.
Context {World error Conn : Type}.
Variable net : Net World error Conn.

Local Abbreviation state := (state World error).

Definition panic (s : state) : state :=
  State (st_world s) (st_trace s) (st_disp s) (st_workers s) (st_wg s)
    (st_chan s) (st_closed s) (st_recv s) (st_cons s) true.

(** One step of the dispatcher goroutine. *)
Definition disp_step (s : state) : option state :=
  match st_disp s with
  | DLoop (h :: rest) =>                                    (* wg.Add(1) *)
      Some (State (st_world s) (st_trace s) (DGo h rest) (st_workers s)
              (st_wg s + 1) (st_chan s) (st_closed s) (st_recv s)
              (st_cons s) (st_panic s))
  | DGo h rest =>                                           (* go func() *)
      Some (State (st_world s) (st_trace s) (DLoop rest)
              (st_workers s ++ [WResolve h])
              (st_wg s) (st_chan s) (st_closed s) (st_recv s)
              (st_cons s) (st_panic s))
  | DLoop [] =>
      Some (State (st_world s) (st_trace s) DWait (st_workers s)
              (st_wg s) (st_chan s) (st_closed s) (st_recv s)
              (st_cons s) (st_panic s))
  | DWait =>                                                (* wg.Wait() *)
      if decide (st_wg s = 0)
      then Some (State (st_world s) (st_trace s) DClose (st_workers s)
                   (st_wg s) (st_chan s) (st_closed s) (st_recv s)
                   (st_cons s) (st_panic s))
      else None
  | DClose =>                                               (* close(rc) *)
      if st_closed s then Some (panic s)
      else Some (State (st_world s) (st_trace s) DExit (st_workers s)
                   (st_wg s) (st_chan s) true (st_recv s)
                   (st_cons s) (st_panic s))
  | DExit => None
  end.

(** One step of the worker goroutine started [i]-th.  The goroutines share
    nothing but [rc] and [wg], so the calls of one [resolveOne] are taken
    as one step. *)
Definition worker_step (i : nat) (s : state) : option state :=
  match st_workers s !! i with
  | Some (WResolve h) =>                                    (* resolveOne(h) *)
      let '(hi, w', tr) := resolveOne net h (st_world s) in
      Some (State w' (st_trace s ++ tr) (st_disp s)
              (<[i := WSend h hi]> (st_workers s))
              (st_wg s) (st_chan s) (st_closed s) (st_recv s)
              (st_cons s) (st_panic s))
  | Some (WSend h hi) =>                                    (* rc <- hi *)
      if st_closed s then Some (panic s)
      else if decide (length (st_chan s) < rc_cap)%nat
      then Some (State (st_world s) (st_trace s) (st_disp s)
                   (<[i := WDone h]> (st_workers s))
                   (st_wg s) (st_chan s ++ [hi]) (st_closed s) (st_recv s)
                   (st_cons s) (st_panic s))
      else None
  | Some (WDone h) =>                                       (* wg.Done() *)
      if decide (st_wg s - 1 < 0) then Some (panic s)
      else Some (State (st_world s) (st_trace s) (st_disp s)
                   (<[i := WExit h]> (st_workers s))
                   (st_wg s - 1) (st_chan s) (st_closed s) (st_recv s)
                   (st_cons s) (st_panic s))
  | Some (WExit _) | None => None
  end.

(** One step of the reader. *)
Definition cons_step (s : state) : option state :=
  match st_cons s with
  | CRange =>
      match st_chan s with
      | hi :: rest =>
          Some (State (st_world s) (st_trace s) (st_disp s) (st_workers s)
                  (st_wg s) rest (st_closed s) (st_recv s ++ [hi])
                  (st_cons s) (st_panic s))
      | [] =>
          if st_closed s
          then Some (State (st_world s) (st_trace s) (st_disp s) (st_workers s)
                       (st_wg s) (st_chan s) (st_closed s) (st_recv s)
                       CExit (st_panic s))
          else None
      end
  | CExit => None
  end.

(** A panic in any goroutine ends the program. *)
Definition step (l : label) (s : state) : option state :=
  if st_panic s then None
  else match l with
       | LDisp => disp_step s
       | LWorker i => worker_step i s
       | LCons => cons_step s
       end.

(** [resolveAll] makes the channel, starts the dispatcher and returns the
    channel to the reader.  [timeout] is the constant it declares first. *)
Definition resolveAll_const (timeout : Duration) (hosts : list string)
    (w : World) : state :=
  State w [] (DLoop hosts) [] 0 [] false [] CRange false.

Definition resolveAll (hosts : list string) (w : World) : state :=
  resolveAll_const (Second * 5) hosts w.


Fixpoint run (sched : list label) (s : state) : option state :=
  match sched with
  | [] => Some s
  | l :: sched' =>
      match step l s with Some s' => run sched' s' | None => None end
  end.

Inductive reachable (s0 : state) : state → Prop :=
  | reachable_init : reachable s0 s0
  | reachable_step s l s' :
      reachable s0 s → step l s = Some s' → reachable s0 s'.

Definition stuck (s : state) : Prop := ∀ l, step l s = None.
End ResolveAll.

(** ** Reports: the [String] method of [hostInfo] *)

Definition tab : string := String "009"%char "".
Definition newline : string := String "010"%char "".

(** [strings.Join] *)
Fixpoint Join (elems : list string) (sep : string) : string :=
  match elems with
  | [] => ""
  | [x] => x
  | x :: rest => x +:+ sep +:+ Join rest sep
  end.

Section Report.
Context {error : Type}.

(** The [Error] method of Go's [error] interface: what [%v] prints for an
    error, and what [log.Fatal] prints for one. *)
Variable Error : error → string.

(** [func (i *hostInfo) String() string].  The two [fmt.Sprintf] calls have
    the formats ["name:\t%v\nerror:\tcould not resolve: %v"] and
    ["name:\t%v\nips:\t%v\nstatus:\t%v\nports:\t%v\n"]; [%v] prints a
    string as it is. *)
Definition hostInfo_String (i : hostInfo error) : string :=
  match err i with
  | Some e =>
      "name:" +:+ tab +:+ name i +:+ newline
      +:+ "error:" +:+ tab +:+ "could not resolve: " +:+ Error e
  | None =>
      let '(status, portsInfo) :=
        if bool_decide (length (ports i) ≠ 0%nat)
        then ("server is up", Join (ports i) ", ")
        else ("server may be down", "no known HTTP(S) ports listening") in
      let addrsInfo := Join (addrs i) ", " in
      "name:" +:+ tab +:+ name i +:+ newline
      +:+ "ips:" +:+ tab +:+ addrsInfo +:+ newline
      +:+ "status:" +:+ tab +:+ status +:+ newline
      +:+ "ports:" +:+ tab +:+ portsInfo +:+ newline
  end.
End Report.

(** ** parseInfile and main *)

(** A file as a [bufio.Scanner] over it presents it: the tokens of the
    successive calls of [Scan], and the error [Err] reports after the last. *)
Record File (error : Type) : Type := {
  scan_tokens : list string;
  scan_err : option error;
}.
Arguments scan_tokens {error} _.
Arguments scan_err {error} _.

Record OS (error : Type) : Type := {
  os_Open : string → File error + error;
  bytes_TrimSpace : string → string;
}.
Arguments os_Open {error} _ _.
Arguments bytes_TrimSpace {error} _ _.

(** How [main] gets to its loop, or does not. *)
Inductive started (World error : Type) : Type :=
  | Fatal (msg : string)                 (* [log.Fatal] *)
  | Started (s : state World error).     (* ranging over [resolveAll(hosts)] *)
Arguments Fatal {World error} _.
Arguments Started {World error} _.

Section Main.
Context {World error : Type}.
Variable os : OS error.
Variable Error : error → string.

(** The body of the scanning loop of [parseInfile]. *)
Definition scan_line (hosts : list string) (token : string) : list string :=
  let b := bytes_TrimSpace os token in
  if bool_decide (String.length b ≠ 0%nat)
     && bool_decide (String.get 0 b ≠ Some "#"%char)
  then hosts ++ [b]
  else hosts.

Definition parseInfile (file : string) : list string * option error :=
  match os_Open os file with
  | inr err => ([], Some err)
  | inl f =>
      let hosts := foldl scan_line [] (scan_tokens f) in
      match scan_err f with
      | Some err => ([], Some err)
      | None => (hosts, None)
      end
  end.

(** [main], with [infile] the value of [flag.Arg(0)] once [flag.Parse] has
    returned.  [log.Fatal] is kept as the message it is given. *)
Definition main (infile : string) (w : World) : started World error :=
  if bool_decide (infile = "") then Fatal "missing required file argument"
  else
    let '(hosts, err) := parseInfile infile in
    match err with
    | Some err => Fatal (Error err)
    | None =>
        if bool_decide (length hosts = 0%nat) then Fatal "empty hosts file"
        else Started (resolveAll hosts w)
    end.

(** What the loop of [main] has printed: [fmt.Println(r)] for every result
    read so far. *)
Definition stdout (s : state World error) : list string :=
  (λ r, hostInfo_String Error r +:+ newline) <$> st_recv s.
End Main.

(** * Part II: the vocabulary of the properties *)

(** ** What [resolveOne] returns and logs *)

Definition candidate_ports : list string := ["80"; "443"].

(** The map literal [map[string]bool{"80": false, "443": false}]. *)
Definition ports_literal : gmap string bool :=
  <["80" := false]> (<["443" := false]> ∅).


Definition dialled (tr : list event) : list string := omap dial_address tr.

(** A probe, as the loops see it: the address, the port and whether the dial
    connected. *)
Definition probe_rec : Type := string * string * bool.

(** What one probe leaves in the log. *)
Definition probe_events (t : Duration) (r : probe_rec) : list event :=
  EvDialTimeout "tcp" (r.1.1 +:+ ":" +:+ r.1.2) t r.2
    :: (if r.2 then [EvClose] else []).

(** The ports map after a sequence of probes. *)
Definition mark (m : gmap string bool) (log : list probe_rec) : gmap string bool :=
  foldl (λ m (r : probe_rec), if r.2 then <[r.1.2 := true]> m else m) m log.

(** The last character of a string, to tell the joined dial addresses of the
    two candidate ports apart. *)
Fixpoint last_char (s : string) : option Ascii.ascii :=
  match s with
  | EmptyString => None
  | String c s' => match last_char s' with None => Some c | r => r end
  end.

Section ResolveOneTerms.
Context {World error Conn : Type}.
Variable net : Net World error Conn.

Definition lookup_addrs (host : string) (w : World) : list string :=
  (net_LookupHost net host w).1.1.
Definition lookup_error (host : string) (w : World) : option error :=
  (net_LookupHost net host w).1.2.

Definition resolveOne_result (host : string) (w : World) : hostInfo error :=
  (resolveOne net host w).1.1.
Definition resolveOne_trace (host : string) (w : World) : list event :=
  (resolveOne net host w).2.
End ResolveOneTerms.

(** ** The invariant of [resolveAll] *)

Definition worker_host {error} (k : worker error) : string :=
  match k with WResolve h | WSend h _ | WDone h | WExit h => h end.

(** The hosts the dispatcher has not started a worker for yet. *)
Definition pending (d : dispatcher) : list string :=
  match d with DLoop rest => rest | DGo h rest => h :: rest | _ => [] end.

(** A worker that has not called [wg.Done()] yet. *)
Definition live {error} (k : worker error) : nat :=
  match k with WExit _ => 0 | _ => 1 end.

Definition live_count {error} (ws : list (worker error)) : nat :=
  sum_list_with live ws.

(** The host of a worker whose send on [rc] has happened. *)
Definition sent {error} (k : worker error) : option string :=
  match k with WDone h | WExit h => Some h | _ => None end.

Definition sent_hosts {error} (ws : list (worker error)) : list string :=
  omap sent ws.

(** A [wg.Add(1)] not yet matched by a started worker. *)
Definition adds (d : dispatcher) : Z :=
  match d with DGo _ _ => 1 | _ => 0 end.

Definition closes (d : dispatcher) : bool :=
  match d with DExit => true | _ => false end.

(** The dispatcher is past [wg.Wait()]. *)
Definition joined (d : dispatcher) : bool :=
  match d with DClose | DExit => true | _ => false end.

Section Invariant.
Context {World error Conn : Type}.
Variable net : Net World error Conn.

Local Abbreviation state := (state World error).

(** A result that some call of [resolveOne] on its own name returned. *)
Definition resolved (hi : hostInfo error) : Prop :=
  ∃ w, hi = resolveOne_result net (name hi) w.

Definition worker_ok (k : worker error) : Prop :=
  match k with WSend h hi => name hi = h ∧ resolved hi | _ => True end.

Record inv (hosts : list string) (s : state) : Prop := Inv {
  inv_panic : st_panic s = false;
  inv_hosts : (worker_host <$> st_workers s) ++ pending (st_disp s) = hosts;
  inv_wg : st_wg s = Z.of_nat (live_count (st_workers s)) + adds (st_disp s);
  inv_closed : st_closed s = closes (st_disp s);
  inv_joined : joined (st_disp s) = true → live_count (st_workers s) = 0%nat;
  inv_sent : name <$> (st_recv s ++ st_chan s) ≡ₚ sent_hosts (st_workers s);
  inv_workers : Forall worker_ok (st_workers s);
  inv_results : Forall resolved (st_recv s ++ st_chan s);
  inv_cons : st_cons s = CExit → st_closed s = true ∧ st_chan s = [];
}.

(** What is left to do, counted in steps. *)
Definition disp_measure (d : dispatcher) : nat :=
  match d with
  | DLoop rest => 6 * length rest + 3
  | DGo _ rest => 6 * length rest + 8
  | DWait => 2
  | DClose => 1
  | DExit => 0
  end.

Definition worker_measure (k : worker error) : nat :=
  match k with WResolve _ => 4 | WSend _ _ => 3 | WDone _ => 1 | WExit _ => 0 end.

Definition cons_measure (c : consumer) : nat :=
  match c with CRange => 1 | CExit => 0 end.

Definition measure (s : state) : nat :=
  if st_panic s then 0
  else 1 + disp_measure (st_disp s)
       + sum_list_with worker_measure (st_workers s)
       + length (st_chan s) + cons_measure (st_cons s).
End Invariant.

(** What has been written to the channel so far, oldest first. *)
Definition emitted {World error} (s : state World error) : list (hostInfo error) :=
  st_recv s ++ st_chan s.


Section StepRelation.
Context {World error Conn : Type}.
Variable net : Net World error Conn.

(** One goroutine takes one step. *)
Definition step_rel (s' s : state World error) : Prop :=
  ∃ l, step net l s = Some s'.
End StepRelation.

(** ** More about the logs and the files *)

(** The hosts looked up, in the order of the lookups. *)
Definition lookups (tr : list event) : list string :=
  omap (λ e, match e with EvLookupHost h => Some h | _ => None end) tr.

(** Every connected dial is followed at once by the close of its
    connection, and nothing else is closed. *)
Fixpoint conns_closed (tr : list event) : bool :=
  match tr with
  | [] => true
  | EvDialTimeout _ _ _ true :: tr' =>
      match tr' with EvClose :: tr'' => conns_closed tr'' | _ => false end
  | EvClose :: _ => false
  | _ :: tr' => conns_closed tr'
  end.

Definition is_close (e : event) : bool :=
  match e with EvClose => true | _ => false end.

Definition is_connected_dial (e : event) : bool :=
  match e with EvDialTimeout _ _ _ true => true | _ => false end.


(** A line [parseInfile] keeps, once trimmed. *)
Definition kept (b : string) : Prop :=
  String.length b ≠ 0%nat ∧ String.get 0 b ≠ Some "#"%char.

Global Instance kept_dec b : Decision (kept b).
Proof. unfold kept. apply _. Defined.

Section Outcomes.
Context {World error Conn : Type}.
Variable net : Net World error Conn.

(** A probe record whose flag is what the dialler answered in some world. *)
Definition dial_outcome (t : Duration) (r : probe_rec) : Prop :=
  ∃ w, r.2 = connected (net_DialTimeout net "tcp" (r.1.1 +:+ ":" +:+ r.1.2) t w).1.

(** The dialler answers the dials of [resolveOne] alike in every world. *)
Definition static_dial : Prop :=
  ∀ a w1 w2,
    connected (net_DialTimeout net "tcp" a (Second * 3) w1).1
    = connected (net_DialTimeout net "tcp" a (Second * 3) w2).1.
End Outcomes.

(** ** A small concrete network, to run the model on *)

Module Demo.
Inductive err_t := NoSuchHost | Refused | TimedOut.

(** [localhost] has two addresses; only 127.0.0.1 listens, on 443. *)
Definition lookup (h : string) (w : nat) : (list string * option err_t) * nat :=
  if String.eqb h "localhost" then (["::1"; "127.0.0.1"], None, w)
  else if String.eqb h "empty.test" then ([], None, w)
  else ([], Some NoSuchHost, w).

Definition dial (nw a : string) (t : Duration) (w : nat) : (string + err_t) * nat :=
  if String.eqb a "127.0.0.1:443" then (inl a, w)
  else if String.eqb a "::1:443" then (inr TimedOut, w)
  else (inr Refused, w).

Definition net : Net nat err_t string :=
  {| net_LookupHost := lookup;
     net_DialTimeout := dial;
     conn_Close := λ _ w, w;
     runtime_rand := λ w, (w, S w) |}.
End Demo.

(** ** The model at work on the example network *)

Module Run.
Definition hosts : list string := ["localhost"; "nope"].

(** One interleaving of the dispatcher, the two workers and the reader. *)
Definition sched : list label :=
  [LDisp; LDisp; LWorker 0; LDisp; LDisp; LDisp; LWorker 1; LWorker 1;
   LWorker 0; LCons; LWorker 0; LWorker 1; LDisp; LDisp; LCons; LCons].
End Run.

(** ** An example file system *)

Module DemoOS.
Fixpoint trim_left (s : string) : string :=
  match s with
  | String c s' => if Ascii.is_space c then trim_left s' else s
  | EmptyString => EmptyString
  end.

(** Trimming of ASCII white space. *)
Definition trim (s : string) : string :=
  String.rev (trim_left (String.rev (trim_left s))).

Definition hosts_file : File Demo.err_t :=
  {| scan_tokens := ["# web servers"; "  localhost "; ""; "   # down"; "nope"];
     scan_err := None |}.

Definition comments_file : File Demo.err_t :=
  {| scan_tokens := ["# nothing here"; "   "; " #localhost"];
     scan_err := None |}.

(** The hosts of [hosts_file], one per line. *)
Definition clean_file : File Demo.err_t :=
  {| scan_tokens := ["localhost"; "nope"]; scan_err := None |}.

Definition open (file : string) : File Demo.err_t + Demo.err_t :=
  if String.eqb file "hosts" then inl hosts_file
  else if String.eqb file "comments" then inl comments_file
  else if String.eqb file "clean" then inl clean_file
  else inr Demo.NoSuchHost.

Definition os : OS Demo.err_t :=
  {| os_Open := open; bytes_TrimSpace := trim |}.

Definition Error (e : Demo.err_t) : string :=
  match e with
  | Demo.NoSuchHost => "no such host"
  | Demo.Refused => "connection refused"
  | Demo.TimedOut => "i/o timeout"
  end.
End DemoOS.

(** * Part III: the proofs *)

(** ** The model on the example network *)

Example resolveOne_localhost :
  resolveOne Demo.net "localhost" 0%nat
  = (HostInfo "localhost" ["::1"; "127.0.0.1"] ["443"] None, 3%nat,
     [EvLookupHost "localhost";
      EvDialTimeout "tcp" "::1:443" 3000000000 false;
      EvDialTimeout "tcp" "::1:80" 3000000000 false;
      EvDialTimeout "tcp" "127.0.0.1:80" 3000000000 false;
      EvDialTimeout "tcp" "127.0.0.1:443" 3000000000 true; EvClose]).
Proof. by vm_compute. Qed.

(** Another draw of the runtime gives another order of the probes, and the
    same result. *)
Example resolveOne_localhost_other_order :
  resolveOne Demo.net "localhost" 1%nat
  = (HostInfo "localhost" ["::1"; "127.0.0.1"] ["443"] None, 4%nat,
     [EvLookupHost "localhost";
      EvDialTimeout "tcp" "::1:80" 3000000000 false;
      EvDialTimeout "tcp" "::1:443" 3000000000 false;
      EvDialTimeout "tcp" "127.0.0.1:443" 3000000000 true; EvClose;
      EvDialTimeout "tcp" "127.0.0.1:80" 3000000000 false]).
Proof. by vm_compute. Qed.

Example resolveOne_nope :
  resolveOne Demo.net "nope" 0%nat
  = (HostInfo "nope" [] [] (Some Demo.NoSuchHost), 0%nat, [EvLookupHost "nope"]).
Proof. by vm_compute. Qed.

Example resolveOne_empty :
  resolveOne Demo.net "empty.test" 0%nat
  = (HostInfo "empty.test" [] [] None, 1%nat, [EvLookupHost "empty.test"]).
Proof. by vm_compute. Qed.

(** The second worker finishes first, so its result is read first. *)
Example run_sched :
  (λ s, (st_recv s, st_chan s, st_closed s, st_cons s, st_wg s, st_panic s))
    <$> run Demo.net Run.sched (resolveAll Run.hosts 0%nat)
  = Some ([HostInfo "nope" [] [] (Some Demo.NoSuchHost);
           HostInfo "localhost" ["::1"; "127.0.0.1"] ["443"] None],
          [], true, CExit, 0, false).
Proof. by vm_compute. Qed.

(** The dispatcher alone gets no further than [wg.Wait()]. *)
Example run_dispatcher_blocks :
  run Demo.net [LDisp; LDisp; LDisp; LDisp; LDisp; LDisp]
    (resolveAll Run.hosts 0%nat) = None.
Proof. by vm_compute. Qed.

(** ** Facts about the monad and about map iteration *)

Section MonadFacts.
Context {World : Type}.

Lemma bind_run {A B} (m : M World A) (k : A → M World B) w y w2 tr :
  bind m k w = (y, w2, tr) →
  ∃ x w1 t1 t2, m w = (x, w1, t1) ∧ k x w1 = (y, w2, t2) ∧ tr = t1 ++ t2.
Proof.
  unfold bind. destruct (m w) as [[x w1] t1].
  destruct (k x w1) as [[y' w2'] t2] eqn:Hk.
  intros [= <- <- <-]. by exists x, w1, t1, t2.
Qed.

Lemma ret_run {A} (x : A) (w : World) y w' tr :
  ret x w = (y, w', tr) → y = x ∧ w' = w ∧ tr = [].
Proof. by intros [= <- <- <-]. Qed.
End MonadFacts.

Lemma range_order_Permutation seed ks : range_order seed ks ≡ₚ ks.
Proof.
  unfold range_order.
  destruct (permutations ks !! _) as [l|] eqn:Hl; simpl; [|done].
  symmetry. apply permutations_Permutation. by eapply list_elem_of_lookup_2.
Qed.

Lemma map_keys_elem_of (m : gmap string bool) k : k ∈ map_keys m ↔ k ∈ dom m.
Proof. unfold map_keys. apply elem_of_elements. Qed.

Lemma map_keys_NoDup (m : gmap string bool) : NoDup (map_keys m).
Proof. apply (NoDup_elements (dom m)). Qed.

Lemma bind_Permutation_ext {A B} (f g : A → list B) (l : list A) :
  (∀ x, f x ≡ₚ g x) → l ≫= f ≡ₚ l ≫= g.
Proof.
  intros Hfg. induction l as [|x l IH]; [done|].
  rewrite !bind_cons. by apply Permutation_app.
Qed.

Lemma last_char_app s1 s2 :
  s2 ≠ EmptyString → last_char (s1 +:+ s2) = last_char s2.
Proof.
  intros Hne. induction s1 as [|c s1 IH]; [done|].
  simpl. rewrite IH. destruct s2; [done|]. simpl. by destruct (last_char s2).
Qed.

Lemma mark_app m l1 l2 : mark m (l1 ++ l2) = mark (mark m l1) l2.
Proof. apply foldl_app. Qed.

Lemma mark_dom m log :
  (∀ r, r ∈ log → r.1.2 ∈ dom m) → dom (mark m log) = dom m.
Proof.
  revert m. induction log as [|[[a p] ok] log IH]; intros m Hin; [done|].
  assert (p ∈ dom m) as Hp.
  { apply (Hin (a, p, ok)). left. }
  assert (dom (if ok then <[p:=true]> m else m) = dom m) as Hd.
  { destruct ok; [|done]. rewrite dom_insert_L.
    apply subseteq_union_1_L. by apply singleton_subseteq_l. }
  change (dom (mark (if ok then <[p:=true]> m else m) log) = dom m).
  rewrite IH, Hd; [done|]. intros r Hr. rewrite Hd. apply Hin. by right.
Qed.

Lemma mark_lookup m log q :
  mark m log !! q = Some true ↔ m !! q = Some true ∨ ∃ a, (a, q, true) ∈ log.
Proof.
  revert m. induction log as [|[[a p] ok] log IH]; intros m.
  { simpl. split; [by left|]. intros [?|[a Ha]]; [done|]. by apply elem_of_nil in Ha. }
  change (mark m ((a, p, ok) :: log))
    with (mark (if ok then <[p:=true]> m else m) log).
  rewrite IH. split.
  - intros [Hm|[a' Ha']].
    + destruct ok; [|by left].
      destruct (decide (p = q)) as [->|Hne].
      * right. exists a. left.
      * rewrite lookup_insert_ne in Hm by done. by left.
    + right. exists a'. by right.
  - intros [Hm|[a' Ha']].
    + left. destruct ok; [|done].
      destruct (decide (p = q)) as [->|Hne].
      * apply lookup_insert_eq.
      * by rewrite lookup_insert_ne.
    + apply elem_of_cons in Ha' as [Heq|Ha'].
      * simplify_eq. left. apply lookup_insert_eq.
      * right. by exists a'.
Qed.

Section ResolverFacts.
Context {World error Conn : Type}.
Variable net : Net World error Conn.

Lemma probe_spec a t p m w m' w' tr :
  probe net a t p m w = (m', w', tr) →
  ∃ ok, tr = probe_events t (a, p, ok) ∧ m' = mark m [(a, p, ok)].
Proof.
  unfold probe. intros (r & w1 & t1 & t2 & Hd & Hk & ->)%bind_run.
  unfold DialTimeout in Hd.
  destruct (net_DialTimeout net _ _ _ w) as [r' w1'].
  injection Hd as <- <- <-.
  destruct r' as [c|e]; simpl in *.
  - apply bind_run in Hk as (? & ? & ? & ? & Hc & Hr & ->).
    injection Hc as <- <- <-. apply ret_run in Hr as (-> & -> & ->).
    by exists true.
  - apply ret_run in Hk as (-> & -> & ->). by exists false.
Qed.

Lemma probe_keys_spec a t ks m w m' w' tr :
  for_range ks (probe net a t) m w = (m', w', tr) →
  ∃ log, log.*1 = (λ p, (a, p)) <$> ks
         ∧ tr = log ≫= probe_events t ∧ m' = mark m log.
Proof.
  revert m w tr. induction ks as [|p ks IH]; intros m w tr; simpl.
  - intros (-> & -> & ->)%ret_run. by exists [].
  - intros (m1 & w1 & t1 & t2 & Hp & Hk & ->)%bind_run.
    apply probe_spec in Hp as (ok & -> & ->).
    apply IH in Hk as (log & Hl & -> & ->).
    exists ((a, p, ok) :: log). split_and!.
    + by rewrite !fmap_cons, Hl.
    + done.
    + done.
Qed.

Lemma range_keys_run m w ks w' tr :
  range_keys net m w = (ks, w', tr) → ks ≡ₚ map_keys m ∧ tr = [].
Proof.
  unfold range_keys. destruct (runtime_rand net w) as [seed w1].
  intros [= <- <- <-]. split; [apply range_order_Permutation|done].
Qed.

Lemma probe_all_spec al t m w m' w' tr :
  probe_all net al t m w = (m', w', tr) →
  ∃ log, log.*1 ≡ₚ (al ≫= λ a, (λ p, (a, p)) <$> map_keys m)
         ∧ tr = log ≫= probe_events t ∧ m' = mark m log.
Proof.
  unfold probe_all. revert m w tr. induction al as [|a al IH]; intros m w tr; simpl.
  - intros (-> & -> & ->)%ret_run. by exists [].
  - intros (m1 & w1 & t1 & t2 & Hb & Hk & ->)%bind_run.
    apply bind_run in Hb as (ks & w0 & t0 & t1' & Hr & Hp & ->).
    apply range_keys_run in Hr as [Hks ->].
    apply probe_keys_spec in Hp as (log1 & Hl1 & -> & ->).
    apply IH in Hk as (log2 & Hl2 & -> & ->).
    assert (dom (mark m log1) = dom m) as Hdom.
    { apply mark_dom. intros r Hr.
      assert (r.1 ∈ log1.*1) as Hr1 by by apply list_elem_of_fmap_2.
      rewrite Hl1 in Hr1. apply list_elem_of_fmap in Hr1 as (p & -> & Hp).
      simpl. apply map_keys_elem_of. by rewrite <- Hks. }
    exists (log1 ++ log2). split_and!.
    + rewrite fmap_app, Hl1, Hl2. unfold map_keys. rewrite Hdom.
      apply Permutation_app_tail. by rewrite Hks.
    + by rewrite bind_app.
    + by rewrite mark_app.
Qed.
End ResolverFacts.

Lemma ports_literal_keys : map_keys ports_literal ≡ₚ candidate_ports.
Proof.
  replace (map_keys ports_literal) with ["443"; "80"] by (by vm_compute).
  apply Permutation_swap.
Qed.

Lemma ports_literal_false p : ports_literal !! p ≠ Some true.
Proof.
  unfold ports_literal. rewrite !lookup_insert.
  repeat case_decide; [done..|]. by rewrite lookup_empty.
Qed.


Lemma elem_of_probe_events t (log : list probe_rec) nw s t' ok :
  EvDialTimeout nw s t' ok ∈ log ≫= probe_events t ↔
  ∃ a p, (a, p, ok) ∈ log ∧ nw = "tcp" ∧ s = a +:+ ":" +:+ p ∧ t' = t.
Proof.
  rewrite list_elem_of_bind. split.
  - intros ([[a p] ok'] & He & Hin). unfold probe_events in He. simpl in He.
    apply elem_of_cons in He as [He|He].
    + injection He as -> -> -> ->. by exists a, p.
    + destruct ok'; [|by apply elem_of_nil in He].
      apply list_elem_of_singleton in He. done.
  - intros (a & p & Hin & -> & -> & ->). exists (a, p, ok). split; [|done]. left.
Qed.

Lemma candidate_ports_cases p : p ∈ candidate_ports ↔ p = "80" ∨ p = "443".
Proof.
  unfold candidate_ports. rewrite !elem_of_cons, elem_of_nil. tauto.
Qed.

Lemma join_port_inj a a' p p' :
  p ∈ candidate_ports → p' ∈ candidate_ports →
  a +:+ ":" +:+ p = a' +:+ ":" +:+ p' → p = p'.
Proof.
  intros Hp Hp' Heq. apply (f_equal last_char) in Heq.
  apply candidate_ports_cases in Hp, Hp'.
  rewrite !last_char_app in Heq by (by destruct Hp as [->| ->], Hp' as [->| ->]).
  by destruct Hp as [->| ->], Hp' as [->| ->].
Qed.

Section ResolveOneFacts.
Context {World error Conn : Type}.
Variable net : Net World error Conn.

Lemma collect_spec m ks (hi : hostInfo error) :
  collect m ks hi =
  HostInfo (name hi) (addrs hi)
    (ports hi ++ filter (λ p, map_index m p = true) ks) (err hi).
Proof.
  revert hi. induction ks as [|p ks IH]; intros hi.
  - simpl. rewrite app_nil_r. by destruct hi.
  - change (collect m (p :: ks) hi)
      with (collect m ks (if map_index m p
              then HostInfo (name hi) (addrs hi) (ports hi ++ [p]) (err hi)
              else hi)).
    rewrite IH, filter_cons. destruct (map_index m p) eqn:Hp.
    + rewrite decide_True by done. simpl. by rewrite <- app_assoc.
    + rewrite decide_False by done. done.
Qed.

(** A failed lookup: [resolveOne] returns at once. *)
Lemma resolveOne_failed host w al e w1 :
  net_LookupHost net host w = (al, Some e, w1) →
  resolveOne net host w
  = (HostInfo host al [] (Some e), w1, [EvLookupHost host]).
Proof.
  intros Hl. unfold resolveOne, bind, LookupHost. by rewrite Hl.
Qed.

(** A successful lookup: every address is probed on every candidate port,
    and the ports that connected at least once are collected. *)
Lemma resolveOne_resolved host w al w1 :
  net_LookupHost net host w = (al, None, w1) →
  ∃ log ks w',
    log.*1 ≡ₚ (al ≫= λ a, (λ p, (a, p)) <$> candidate_ports)
    ∧ ks ≡ₚ candidate_ports
    ∧ resolveOne net host w
      = (HostInfo host al
           (filter (λ p, map_index (mark ports_literal log) p = true) ks) None,
         w', EvLookupHost host :: (log ≫= probe_events (Second * 3))).
Proof.
  intros Hl. unfold resolveOne, bind at 1, LookupHost. rewrite Hl. simpl.
  fold ports_literal.
  destruct (bind (probe_all net al (Second * 3) ports_literal) _ w1)
    as [[hi w'] tr] eqn:Hrun.
  apply bind_run in Hrun as (m & w2 & t1 & t2 & Hp & Hk & ->).
  apply probe_all_spec in Hp as (log & Hlog & -> & ->).
  apply bind_run in Hk as (ks & w3 & t3 & t4 & Hr & Hc & ->).
  apply range_keys_run in Hr as [Hks ->].
  apply ret_run in Hc as (-> & -> & ->).
  assert (dom (mark ports_literal log) = dom ports_literal) as Hdom.
  { apply mark_dom. intros r Hr.
    assert (r.1 ∈ log.*1) as Hr1 by by apply list_elem_of_fmap_2.
    rewrite Hlog in Hr1.
    apply list_elem_of_bind in Hr1 as (a & Hr1 & _).
    apply list_elem_of_fmap in Hr1 as (p & -> & Hp).
    simpl. by apply map_keys_elem_of. }
  exists log, ks, w3. split_and!.
  - rewrite Hlog. apply bind_Permutation_ext.
    intros a. by rewrite ports_literal_keys.
  - rewrite Hks. unfold map_keys. rewrite Hdom. apply ports_literal_keys.
  - rewrite collect_spec. simpl. by rewrite !app_nil_r.
Qed.
End ResolveOneFacts.

(** ** The properties of [resolveOne] *)

Lemma filter_none {A} (P : A → Prop) `{!∀ x, Decision (P x)} (l : list A) :
  (∀ x, x ∈ l → ¬ P x) → filter P l = [].
Proof.
  induction l as [|x l IH]; intros Hl; [done|].
  rewrite filter_cons_False by (apply Hl; left).
  apply IH. intros y Hy. apply Hl. by right.
Qed.

Lemma candidate_ports_NoDup : NoDup candidate_ports.
Proof.
  unfold candidate_ports. apply NoDup_cons. split; [|apply NoDup_singleton].
  by intros [=]%list_elem_of_singleton.
Qed.



Section ResolveOneProps.
Context {World error Conn : Type}.
Variable net : Net World error Conn.

Lemma resolveOne_cases host w :
  (∃ e, lookup_error net host w = Some e
     ∧ resolveOne_result net host w = HostInfo host (lookup_addrs net host w) [] (Some e)
     ∧ resolveOne_trace net host w = [EvLookupHost host])
  ∨ (∃ log ks,
       lookup_error net host w = None
       ∧ log.*1 ≡ₚ (lookup_addrs net host w ≫= λ a, (λ p, (a, p)) <$> candidate_ports)
       ∧ ks ≡ₚ candidate_ports
       ∧ resolveOne_result net host w
         = HostInfo host (lookup_addrs net host w)
             (filter (λ p, map_index (mark ports_literal log) p = true) ks) None
       ∧ resolveOne_trace net host w
         = EvLookupHost host :: (log ≫= probe_events (Second * 3))).
Proof.
  unfold lookup_error, lookup_addrs, resolveOne_result, resolveOne_trace.
  destruct (net_LookupHost net host w) as [[al [e|]] w1] eqn:Hl.
  - left. exists e. by rewrite (resolveOne_failed _ _ _ _ _ _ Hl).
  - right. destruct (resolveOne_resolved _ _ _ _ _ Hl)
      as (log & ks & w' & Hlog & Hks & ->).
    by exists log, ks.
Qed.

Lemma name_resolveOne host w : name (resolveOne_result net host w) = host.
Proof.
  destruct (resolveOne_cases host w)
    as [(e & _ & -> & _)|(log & ks & _ & _ & _ & -> & _)]; done.
Qed.

Lemma addrs_resolveOne host w :
  addrs (resolveOne_result net host w) = lookup_addrs net host w.
Proof.
  destruct (resolveOne_cases host w)
    as [(e & _ & -> & _)|(log & ks & _ & _ & _ & -> & _)]; done.
Qed.

Lemma err_resolveOne host w :
  err (resolveOne_result net host w) = lookup_error net host w.
Proof.
  destruct (resolveOne_cases host w)
    as [(e & -> & -> & _)|(log & ks & -> & _ & _ & -> & _)]; done.
Qed.

Lemma log_pairs (log : list probe_rec) al a p ok :
  log.*1 ≡ₚ (al ≫= λ a, (λ p, (a, p)) <$> candidate_ports) →
  (a, p, ok) ∈ log → a ∈ al ∧ p ∈ candidate_ports.
Proof.
  intros Hlog Hin.
  assert ((a, p) ∈ log.*1) as Hap by apply (list_elem_of_fmap_2 fst _ _ Hin).
  rewrite Hlog in Hap. apply list_elem_of_bind in Hap as (a' & Hap & Ha').
  apply list_elem_of_fmap in Hap as (p' & [= -> ->] & Hp'). done.
Qed.

Lemma map_index_mark log p :
  map_index (mark ports_literal log) p = true ↔ ∃ a, (a, p, true) ∈ log.
Proof.
  unfold map_index. split.
  - destruct (mark ports_literal log !! p) as [[]|] eqn:Hm; [|done..].
    intros _. apply mark_lookup in Hm as [Hm|Hm]; [|done].
    by apply ports_literal_false in Hm.
  - intros Ha. assert (mark ports_literal log !! p = Some true) as ->; [|done].
    apply mark_lookup. by right.
Qed.

Lemma open_port_answered host w p :
  p ∈ ports (resolveOne_result net host w) →
  ∃ a, a ∈ addrs (resolveOne_result net host w)
       ∧ EvDialTimeout "tcp" (a +:+ ":" +:+ p) (Second * 3) true
         ∈ resolveOne_trace net host w.
Proof.
  destruct (resolveOne_cases host w)
    as [(e & _ & -> & _)|(log & ks & _ & Hlog & Hks & -> & ->)]; simpl.
  { by intros ?%elem_of_nil. }
  rewrite list_elem_of_filter, map_index_mark. intros [[a Ha] _]. exists a.
  destruct (log_pairs _ _ _ _ _ Hlog Ha) as [Hal _]. split; [done|].
  right. apply elem_of_probe_events. by exists a, p.
Qed.

Lemma answered_port_open host w p a :
  p ∈ candidate_ports →
  EvDialTimeout "tcp" (a +:+ ":" +:+ p) (Second * 3) true
    ∈ resolveOne_trace net host w →
  p ∈ ports (resolveOne_result net host w).
Proof.
  intros Hp.
  destruct (resolveOne_cases host w)
    as [(e & _ & -> & ->)|(log & ks & _ & Hlog & Hks & -> & ->)]; simpl.
  { by intros [=]%list_elem_of_singleton. }
  intros [?|Hev]%elem_of_cons; [done|].
  apply elem_of_probe_events in Hev as (a' & p' & Hin & _ & Heq & _).
  destruct (log_pairs _ _ _ _ _ Hlog Hin) as [_ Hp'].
  apply join_port_inj in Heq as ->; [|done..].
  rewrite list_elem_of_filter, map_index_mark. split; [by exists a'|].
  by rewrite Hks.
Qed.

Lemma ports_resolveOne_candidates host w :
  ports (resolveOne_result net host w) ⊆ candidate_ports.
Proof.
  destruct (resolveOne_cases host w)
    as [(e & _ & -> & _)|(log & ks & _ & _ & Hks & -> & _)]; simpl.
  - apply list_subseteq_nil.
  - intros p [_ Hp]%list_elem_of_filter. by rewrite <- Hks.
Qed.

Lemma ports_resolveOne_NoDup host w : NoDup (ports (resolveOne_result net host w)).
Proof.
  destruct (resolveOne_cases host w)
    as [(e & _ & -> & _)|(log & ks & _ & _ & Hks & -> & _)]; simpl.
  - constructor.
  - apply NoDup_filter. rewrite Hks. apply candidate_ports_NoDup.
Qed.

Lemma trace_dials host w nw s t ok :
  EvDialTimeout nw s t ok ∈ resolveOne_trace net host w →
  nw = "tcp" ∧ t = Second * 3
  ∧ ∃ a p, a ∈ lookup_addrs net host w ∧ p ∈ candidate_ports
           ∧ s = a +:+ ":" +:+ p.
Proof.
  destruct (resolveOne_cases host w)
    as [(e & _ & _ & ->)|(log & ks & _ & Hlog & _ & _ & ->)].
  { by intros [=]%list_elem_of_singleton. }
  intros [?|Hev]%elem_of_cons; [done|].
  apply elem_of_probe_events in Hev as (a & p & Hin & -> & -> & ->).
  destruct (log_pairs _ _ _ _ _ Hlog Hin) as [Ha Hp].
  split_and!; [done..|]. by exists a, p.
Qed.

End ResolveOneProps.

Section ResolveOneClaims.
Context {World error Conn : Type}.
Variable net : Net World error Conn.

Local Abbreviation result := (resolveOne_result net).
Local Abbreviation trace := (resolveOne_trace net).

(** C3. When the DNS lookup of a host fails (the resolver hands back an
    error and, as Go's resolver does, no addresses), [resolveOne] returns a
    result with no addresses, no open ports and the error set, and its log
    holds the lookup and nothing else: no dial is attempted. *)
Theorem resolveOne_lookup_failure host w :
  lookup_error net host w ≠ None →
  lookup_addrs net host w = [] →
  addrs (result host w) = []
  ∧ ports (result host w) = []
  ∧ err (result host w) ≠ None
  ∧ dialled (trace host w) = []
  ∧ trace host w = [EvLookupHost host].
Proof.
  intros Hfail Hnil.
  destruct (resolveOne_cases net host w)
    as [(e & He & -> & ->)|(log & ks & He & _)]; [|done].
  simpl. by rewrite Hnil.
Qed.


(** C5, as amended.  Provided a failed lookup hands back no addresses: a
    result with addresses has no error; a result with no error has the
    addresses the resolver returned, so it has addresses unless the
    resolver succeeded with none, and then it has no open ports either. *)
Theorem resolveOne_addrs_err host w :
  (lookup_error net host w ≠ None → lookup_addrs net host w = []) →
  (addrs (result host w) ≠ [] → err (result host w) = None)
  ∧ (err (result host w) = None →
       addrs (result host w) ≠ []
       ∨ (lookup_addrs net host w = [] ∧ lookup_error net host w = None
          ∧ addrs (result host w) = [] ∧ ports (result host w) = [])).
Proof.
  intros Hcontract.
  destruct (resolveOne_cases net host w)
    as [(e & He & Hres & _)|(log & ks & He & Hlog & _ & Hres & _)];
    rewrite Hres; simpl.
  - split; [|done]. intros Hne. destruct Hne. apply Hcontract. by rewrite He.
  - split; [done|]. intros _.
    destruct (lookup_addrs net host w) as [|a al] eqn:Hal; [|by left].
    right. split_and!; [done..|].
    apply Permutation_nil_r, fmap_nil_inv in Hlog as ->.
    apply filter_none. intros p _ Hm.
    apply map_index_mark in Hm as [a Ha]. by apply elem_of_nil in Ha.
Qed.

(** C6. The open ports of every result are among the candidate ports
    "80" and "443", and none is listed twice. *)
Theorem resolveOne_ports_candidates host w :
  ports (result host w) ⊆ candidate_ports ∧ NoDup (ports (result host w)).
Proof.
  split; [apply ports_resolveOne_candidates|apply ports_resolveOne_NoDup].
Qed.

(** C7. A dial that fails leaves the ports map as it was and logs nothing
    but the failed attempt, whatever the error; the error of a result is
    the error of the lookup, and a port on which no dial connected is not
    listed as open. *)
Theorem probe_failures_not_surfaced host w :
  err (result host w) = lookup_error net host w
  ∧ (∀ p, (∀ a, a ∈ addrs (result host w) →
             EvDialTimeout "tcp" (a +:+ ":" +:+ p) (Second * 3) true
               ∉ trace host w) →
          p ∉ ports (result host w))
  ∧ (∀ a t p m w0 e w1,
       net_DialTimeout net "tcp" (a +:+ ":" +:+ p) t w0 = (inr e, w1) →
       probe net a t p m w0
       = (m, w1, [EvDialTimeout "tcp" (a +:+ ":" +:+ p) t false])).
Proof.
  split_and!.
  - apply err_resolveOne.
  - intros p Hno (a & Ha & Hev)%open_port_answered. by apply (Hno a).
  - intros a t p m w0 e w1 Hd. unfold probe, bind, DialTimeout.
    by rewrite Hd.
Qed.

(** C9. Every dial that [resolveOne] makes is a "tcp" dial with a timeout
    of [time.Second * 3], that is 3 000 000 000 ns. *)
Theorem resolveOne_dial_timeout host w :
  Forall (λ e, ∀ nw s t ok, e = EvDialTimeout nw s t ok →
               nw = "tcp" ∧ t = Second * 3 ∧ t = 3000000000)
         (trace host w).
Proof.
  apply Forall_forall. intros e He nw s t ok ->.
  apply trace_dials in He as (-> & -> & _). done.
Qed.

End ResolveOneClaims.

Lemma insert_split {A} (l : list A) i y x :
  l !! i = Some y → ∃ l1 l2, l = l1 ++ y :: l2 ∧ <[i:=x]> l = l1 ++ x :: l2.
Proof.
  intros Hi. exists (take i l), (drop (S i) l). split.
  - by rewrite take_drop_middle.
  - apply insert_take_drop. by eapply lookup_lt_Some.
Qed.

Section InvariantFacts.
Context {World error Conn : Type}.
Variable net : Net World error Conn.

Local Abbreviation state := (state World error).

Lemma live_count_app (l1 l2 : list (worker error)) :
  live_count (l1 ++ l2) = (live_count l1 + live_count l2)%nat.
Proof. apply sum_list_with_app. Qed.

Lemma sent_hosts_app (l1 l2 : list (worker error)) :
  sent_hosts (l1 ++ l2) = sent_hosts l1 ++ sent_hosts l2.
Proof. apply omap_app. Qed.

Lemma inv_init t hosts w : inv net hosts (resolveAll_const t hosts w).
Proof. by constructor. Qed.

Lemma disp_step_inv hosts s s' :
  inv net hosts s → disp_step s = Some s' → inv net hosts s'.
Proof.
  intros [Hp Hh Hwg Hc Hj Hs Hw Hr Hcons]. unfold disp_step.
  destruct (st_disp s) as [[|h rest]|h rest| | |] eqn:Hd; simpl in *.
  - intros [= <-]. constructor; simpl; try done.
  - intros [= <-]. constructor; simpl; try done. lia.
  - intros [= <-]. constructor; simpl; try done.
    + by rewrite fmap_app, <- app_assoc.
    + rewrite live_count_app. change (live_count [WResolve h]) with 1%nat. lia.
    + by rewrite sent_hosts_app, app_nil_r.
    + apply Forall_app. split; [done|]. by repeat constructor.
  - case_decide as Hz; [|done]. intros [= <-]. constructor; simpl; try done.
    intros _. lia.
  - rewrite Hc. intros [= <-]. constructor; simpl; try done.
    intros Hex. destruct (Hcons Hex). congruence.
  - done.
Qed.

Lemma cons_step_inv hosts s s' :
  inv net hosts s → cons_step s = Some s' → inv net hosts s'.
Proof.
  intros [Hp Hh Hwg Hc Hj Hs Hw Hr Hcons]. unfold cons_step.
  destruct (st_cons s) eqn:Hk; [|done].
  destruct (st_chan s) as [|hi rest] eqn:Hch.
  - destruct (st_closed s) eqn:Hcl; [|done].
    intros [= <-]. constructor; simpl; done.
  - intros [= <-]. constructor; simpl; try done.
    + by rewrite <- app_assoc.
    + by rewrite <- app_assoc.
Qed.

Lemma live_count_pos (ws : list (worker error)) i k :
  ws !! i = Some k → live k = 1%nat → (0 < live_count ws)%nat.
Proof.
  intros Hi Hk. apply (insert_split _ _ _ k) in Hi as (l1 & l2 & -> & _).
  rewrite live_count_app. change (live_count (k :: l2)) with (live k + live_count l2)%nat.
  lia.
Qed.

Lemma worker_step_inv hosts i s s' :
  inv net hosts s → worker_step net i s = Some s' → inv net hosts s'.
Proof.
  intros [Hp Hh Hwg Hc Hj Hs Hw Hr Hcons]. unfold worker_step.
  destruct (st_workers s !! i) as [k|] eqn:Hi; [|done].
  assert (live k = 1%nat → closes (st_disp s) = false ∧ adds (st_disp s) + 1 ≤ st_wg s)
    as Hlive.
  { intros Hk. pose proof (live_count_pos _ _ _ Hi Hk) as Hpos. split; [|lia].
    destruct (st_disp s); try done. specialize (Hj eq_refl). lia. }
  assert (worker_ok net k) as Hk by (eapply Forall_lookup_1; eauto).
  destruct k as [h|h hi|h|h]; [| | |done].
  - destruct (resolveOne net h (st_world s)) as [[hi w'] tr] eqn:Hrun.
    intros [= <-].
    destruct (insert_split _ _ _ (WSend h hi) Hi) as (l1 & l2 & Hl & ->).
    rewrite Hl in *. clear Hl.
    constructor; simpl; try done.
    + by rewrite fmap_app in *.
    + by rewrite live_count_app in *.
    + by rewrite live_count_app in *.
    + by rewrite sent_hosts_app in *.
    + apply Forall_app in Hw as [Hw1 Hw2%Forall_cons_1].
      apply Forall_app. split; [done|]. constructor; [|by destruct Hw2].
      assert (hi = resolveOne_result net h (st_world s)) as ->
        by (unfold resolveOne_result; by rewrite Hrun).
      split; [apply name_resolveOne|]. exists (st_world s).
      by rewrite name_resolveOne.
  - destruct Hlive as [Hcl Hle]; [done|]. rewrite Hc, Hcl.
    case_decide as Hcap; [|done]. intros [= <-].
    destruct (insert_split _ _ _ (WDone h) Hi) as (l1 & l2 & Hl & ->).
    rewrite Hl in *. clear Hl. destruct Hk as [Hname Hres].
    constructor; simpl; try done.
    + by rewrite fmap_app in *.
    + by rewrite live_count_app in *.
    + by rewrite live_count_app in *.
    + rewrite sent_hosts_app in *. simpl in *.
      rewrite app_assoc, fmap_app. simpl. rewrite Hname, Hs.
      rewrite <- Permutation_cons_append. apply Permutation_middle.
    + apply Forall_app in Hw as [Hw1 Hw2%Forall_cons_1].
      apply Forall_app. split; [done|]. constructor; [done|by destruct Hw2].
    + rewrite app_assoc. apply Forall_app. split; [done|]. by constructor.
    + intros Hex. destruct (Hcons Hex) as [Hcl' _]. congruence.
  - destruct Hlive as [Hcl Hle]; [done|].
    assert (0 ≤ adds (st_disp s)) as Hadds by (by destruct (st_disp s)).
    case_decide as Hneg; [lia|].
    intros [= <-].
    destruct (insert_split _ _ _ (WExit h) Hi) as (l1 & l2 & Hl & ->).
    rewrite Hl in *. clear Hl.
    constructor; simpl; try done.
    + by rewrite fmap_app in *.
    + rewrite live_count_app in *. unfold live_count in *. simpl in *. lia.
    + rewrite live_count_app in *. unfold live_count in *. simpl in *.
      intros Hj'. specialize (Hj Hj'). lia.
    + by rewrite sent_hosts_app in *.
    + apply Forall_app in Hw as [Hw1 Hw2%Forall_cons_1].
      apply Forall_app. split; [done|]. constructor; [done|by destruct Hw2].
Qed.
End InvariantFacts.

Section Runs.
Context {World error Conn : Type}.
Variable net : Net World error Conn.

Local Abbreviation state := (state World error).

Lemma step_inv hosts l s s' :
  inv net hosts s → step net l s = Some s' → inv net hosts s'.
Proof.
  intros Hinv. unfold step. rewrite (inv_panic _ _ _ Hinv).
  destruct l; eauto using disp_step_inv, worker_step_inv, cons_step_inv.
Qed.

Lemma reachable_inv t hosts w s :
  reachable net (resolveAll_const t hosts w) s → inv net hosts s.
Proof. induction 1; eauto using inv_init, step_inv. Qed.

Lemma resolveAll_inv hosts w s :
  reachable net (resolveAll hosts w) s → inv net hosts s.
Proof. apply reachable_inv. Qed.

Lemma reachable_run s0 s sched s' :
  reachable net s0 s → run net sched s = Some s' → reachable net s0 s'.
Proof.
  revert s. induction sched as [|l sched IH]; intros s Hs; simpl.
  - by intros [= <-].
  - destruct (step net l s) as [s1|] eqn:Hstep; [|done].
    apply IH. by eapply reachable_step.
Qed.

(** *** Termination: every step uses up some of the measure *)

Lemma step_measure l s s' :
  step net l s = Some s' → (measure s' < measure s)%nat.
Proof.
  unfold step, measure. destruct (st_panic s) eqn:Hp; [done|].
  destruct l as [|i|].
  - unfold disp_step.
    destruct (st_disp s) as [[|h rest]|h rest| | |] eqn:Hd.
    + intros [= <-]. simpl. rewrite Hp. lia.
    + intros [= <-]. simpl. rewrite Hp. lia.
    + intros [= <-]. simpl. rewrite Hp, sum_list_with_app. simpl. lia.
    + case_decide; [|done]. intros [= <-]. simpl. rewrite Hp. lia.
    + destruct (st_closed s); intros [= <-]; simpl; rewrite ?Hp; lia.
    + done.
  - unfold worker_step.
    destruct (st_workers s !! i) as [k|] eqn:Hi; [|done].
    destruct k as [h|h hi|h|h]; [| | |done].
    + destruct (resolveOne net h (st_world s)) as [[hi w'] tr].
      intros [= <-]. simpl. rewrite Hp.
      destruct (insert_split _ _ _ (WSend h hi) Hi) as (l1 & l2 & -> & ->).
      rewrite !sum_list_with_app. simpl. lia.
    + destruct (st_closed s); [intros [= <-]; simpl; lia|].
      case_decide; [|done]. intros [= <-]. simpl. rewrite Hp.
      destruct (insert_split _ _ _ (WDone h) Hi) as (l1 & l2 & -> & ->).
      rewrite !sum_list_with_app, length_app. simpl. lia.
    + case_decide; [intros [= <-]; simpl; lia|].
      intros [= <-]. simpl. rewrite Hp.
      destruct (insert_split _ _ _ (WExit h) Hi) as (l1 & l2 & -> & ->).
      rewrite !sum_list_with_app. simpl. lia.
  - unfold cons_step. destruct (st_cons s) eqn:Hk; [|done].
    destruct (st_chan s) as [|hi rest] eqn:Hch.
    + destruct (st_closed s); [|done]. intros [= <-]. simpl.
      rewrite ?Hp, ?Hch, ?Hk. simpl. lia.
    + intros [= <-]. simpl. rewrite ?Hp, ?Hch, ?Hk. simpl. lia.
Qed.

Lemma step_rel_wf : well_founded (step_rel net).
Proof.
  apply (well_founded_lt_compat _ measure).
  intros s' s [l Hl]. by eapply step_measure.
Qed.

(** *** Progress: until the reader has seen the close, some goroutine can
    take a step *)

Lemma live_count_find (ws : list (worker error)) :
  (0 < live_count ws)%nat → ∃ i k, ws !! i = Some k ∧ live k = 1%nat.
Proof.
  induction ws as [|k ws IH]; [by inversion 1|].
  change (live_count (k :: ws)) with (live k + live_count ws)%nat.
  destruct (live k) as [|[|n]] eqn:Hk.
  - intros (i & k' & Hi & Hk')%IH. by exists (S i), k'.
  - intros _. by exists 0%nat, k.
  - by destruct k.
Qed.

Lemma rc_cap_pos : (0 < rc_cap)%nat.
Proof. unfold rc_cap. rewrite Z.shiftl_1_l. lia. Qed.

Lemma progress hosts s :
  inv net hosts s → st_cons s = CRange → ∃ l s', step net l s = Some s'.
Proof.
  intros [Hp Hh Hwg Hc Hj Hs Hw Hr Hcons] Hk. unfold step. rewrite Hp.
  destruct (st_chan s) as [|hi rest] eqn:Hch.
  2: { exists LCons. unfold cons_step. rewrite Hk, Hch. eauto. }
  destruct (st_closed s) eqn:Hcl.
  { exists LCons. unfold cons_step. rewrite Hk, Hch, Hcl. eauto. }
  destruct (st_disp s) as [[|h rest]|h rest| | |] eqn:Hd;
    try (exists LDisp; unfold disp_step; rewrite Hd, ?Hcl; by eauto).
  destruct (decide (st_wg s = 0)) as [Hz|Hnz].
  { exists LDisp. unfold disp_step. rewrite Hd, decide_True by done. eauto. }
  destruct (live_count_find (st_workers s)) as (i & k & Hi & Hlive).
  { simpl in Hwg. lia. }
  exists (LWorker i). unfold worker_step. rewrite Hi, Hcl, Hch.
  destruct k as [h|h hi|h|h]; [| | |done].
  - destruct (resolveOne net h (st_world s)) as [[hi w'] tr]. eauto.
  - rewrite decide_True by apply rc_cap_pos. eauto.
  - case_decide; eauto.
Qed.

Lemma exited_stuck hosts s : inv net hosts s → st_cons s = CExit → stuck net s.
Proof.
  intros [Hp Hh Hwg Hc Hj Hs Hw Hr Hcons] Hk l.
  destruct (Hcons Hk) as [Hcl Hch]. rewrite Hc in Hcl.
  destruct (st_disp s) eqn:Hd; try done. specialize (Hj eq_refl).
  unfold step. rewrite Hp. destruct l as [|i|].
  - unfold disp_step. by rewrite Hd.
  - unfold worker_step. destruct (st_workers s !! i) as [k|] eqn:Hi; [|done].
    destruct k; try done;
      (pose proof (live_count_pos _ _ _ Hi eq_refl); lia).
  - unfold cons_step. by rewrite Hk.
Qed.

Lemma stuck_exited hosts s : inv net hosts s → stuck net s → st_cons s = CExit.
Proof.
  intros Hinv Hstuck. destruct (st_cons s) eqn:Hk; [|done].
  destruct (progress hosts s Hinv Hk) as (l & s' & Hstep).
  by rewrite Hstuck in Hstep.
Qed.

(** From every state of a run, some schedule leads to the end. *)
Lemma run_to_exit hosts s :
  inv net hosts s → ∃ sched s', run net sched s = Some s' ∧ st_cons s' = CExit.
Proof.
  induction (step_rel_wf s) as [s _ IH]. intros Hinv.
  destruct (st_cons s) eqn:Hk; [|by exists [], s].
  destruct (progress hosts s Hinv Hk) as (l & s1 & Hstep).
  destruct (IH s1) as (sched & s' & Hrun & Hex).
  { by exists l. }
  { by eapply step_inv. }
  exists (l :: sched), s'. simpl. by rewrite Hstep.
Qed.

(** *** What the invariant says once the channel is closed *)

Lemma live_count_zero (ws : list (worker error)) :
  live_count ws = 0%nat → Forall (λ k, k = WExit (worker_host k)) ws.
Proof.
  induction ws as [|k ws IH]; [constructor|].
  change (live_count (k :: ws)) with (live k + live_count ws)%nat.
  intros Hz. apply Forall_cons. split; [|apply IH; lia].
  destruct k; simpl in *; done.
Qed.

Lemma sent_hosts_exited (ws : list (worker error)) :
  Forall (λ k, k = WExit (worker_host k)) ws → sent_hosts ws = worker_host <$> ws.
Proof.
  induction 1 as [|k ws Hk _ IH]; [done|].
  rewrite fmap_cons, <- IH, Hk. done.
Qed.

Lemma closed_all_sent hosts s :
  inv net hosts s → st_closed s = true →
  worker_host <$> st_workers s = hosts
  ∧ Forall (λ k, k = WExit (worker_host k)) (st_workers s)
  ∧ name <$> emitted s ≡ₚ hosts.
Proof.
  intros [Hp Hh Hwg Hc Hj Hs Hw Hr Hcons] Hcl. rewrite Hc in Hcl.
  destruct (st_disp s) eqn:Hd; try done. specialize (Hj eq_refl).
  simpl in Hh. rewrite app_nil_r in Hh.
  pose proof (live_count_zero _ Hj) as Hex. split_and!; [done..|].
  unfold emitted. by rewrite Hs, sent_hosts_exited, Hh.
Qed.

Lemma length_sent_hosts (ws : list (worker error)) :
  (length (sent_hosts ws) ≤ length ws)%nat.
Proof.
  induction ws as [|k ws IH]; [done|].
  change (sent_hosts (k :: ws))
    with (match sent k with Some h => h :: sent_hosts ws | None => sent_hosts ws end).
  destruct (sent k); simpl; lia.
Qed.

Lemma emitted_bound hosts s :
  inv net hosts s → (length (emitted s) ≤ length hosts)%nat.
Proof.
  intros [Hp Hh Hwg Hc Hj Hs Hw Hr Hcons].
  rewrite <- (length_fmap name). unfold emitted. rewrite Hs, <- Hh.
  rewrite length_app, length_fmap. pose proof (length_sent_hosts (st_workers s)). lia.
Qed.

(** *** The calls made during a run *)



End Runs.

Section ResolveAllClaims.
Context {World error Conn : Type}.
Variable net : Net World error Conn.

(** C1. For every list of N hosts (the empty list included), every run of
    [resolveAll] with a reader ranging over the returned channel ends, it
    can end only with the reader having seen the channel closed, and by
    then the reader has received exactly N results, one for each entry of
    the host list (their names are the hosts up to order), each one
    returned by [resolveOne] for its host.  No run panics, and from every
    state of a run the end can be reached. *)
Theorem resolveAll_yields_every_result hosts w :
  (∀ s, reachable net (resolveAll hosts w) s →
      st_panic s = false
      ∧ (length (st_recv s) ≤ length hosts)%nat
      ∧ (stuck net s ↔ st_cons s = CExit)
      ∧ (st_cons s = CExit →
           st_closed s = true ∧ st_chan s = []
           ∧ length (st_recv s) = length hosts
           ∧ name <$> st_recv s ≡ₚ hosts
           ∧ (NoDup hosts → NoDup (name <$> st_recv s))
           ∧ Forall (resolved net) (st_recv s)))
  ∧ well_founded (step_rel net)
  ∧ (∀ s, reachable net (resolveAll hosts w) s →
       ∃ sched s', run net sched s = Some s' ∧ st_cons s' = CExit).
Proof.
  split_and!.
  - intros s Hinv%resolveAll_inv. split; [|split; [|split]].
    + by destruct Hinv.
    + pose proof (emitted_bound net hosts s Hinv) as Hb.
      unfold emitted in Hb. rewrite length_app in Hb. lia.
    + split; [by apply stuck_exited with hosts|by apply exited_stuck with hosts].
    + intros Hex. destruct (inv_cons _ _ _ Hinv Hex) as [Hcl Hch].
      destruct (closed_all_sent net hosts s Hinv Hcl) as (_ & _ & Hperm).
      pose proof (inv_results _ _ _ Hinv) as Hres.
      unfold emitted in Hperm. rewrite Hch, app_nil_r in Hperm, Hres.
      split_and!; try done.
      * by rewrite <- (length_fmap name), Hperm.
      * intros Hnd. by rewrite Hperm.
  - apply step_rel_wf.
  - intros s Hinv%resolveAll_inv. by apply run_to_exit with hosts.
Qed.

(** C2. In every run of [resolveAll], once the channel is closed (and so
    whenever the reader has seen it closed) a worker has been started for
    every host, every worker has sent its result and called [wg.Done()],
    and all N results have been written to the channel; a reader that
    has seen the close has received all of them.  No send ever hits a
    closed channel. *)
Theorem close_after_every_send hosts w s :
  reachable net (resolveAll hosts w) s →
  st_closed s = true ∨ st_cons s = CExit →
  st_panic s = false
  ∧ worker_host <$> st_workers s = hosts
  ∧ Forall (λ k, k = WExit (worker_host k)) (st_workers s)
  ∧ length (emitted s) = length hosts
  ∧ name <$> emitted s ≡ₚ hosts
  ∧ (st_cons s = CExit → st_recv s = emitted s).
Proof.
  intros Hinv%resolveAll_inv Hcl.
  assert (st_closed s = true) as Hclosed.
  { destruct Hcl as [?|Hex]; [done|]. by destruct (inv_cons _ _ _ Hinv Hex). }
  destruct (closed_all_sent net hosts s Hinv Hclosed) as (Hws & Hex & Hperm).
  split_and!; try done.
  - by destruct Hinv.
  - by rewrite <- (length_fmap name), Hperm.
  - intros Hk. destruct (inv_cons _ _ _ Hinv Hk) as [_ Hch].
    unfold emitted. by rewrite Hch, app_nil_r.
Qed.

End ResolveAllClaims.

Lemma resolveOne_lookup_failure_witness :
  addrs (resolveOne_result Demo.net "nope" 0%nat) = []
  ∧ ports (resolveOne_result Demo.net "nope" 0%nat) = []
  ∧ err (resolveOne_result Demo.net "nope" 0%nat) ≠ None
  ∧ dialled (resolveOne_trace Demo.net "nope" 0%nat) = []
  ∧ resolveOne_trace Demo.net "nope" 0%nat = [EvLookupHost "nope"].
Proof.
  apply (resolveOne_lookup_failure Demo.net "nope" 0%nat).
  - vm_compute. discriminate.
  - reflexivity.
Defined.


Lemma resolveOne_addrs_err_counterexample :
  ¬ (addrs (resolveOne_result Demo.net "empty.test" 0%nat) ≠ []
     ↔ err (resolveOne_result Demo.net "empty.test" 0%nat) = None).
Proof. intros [_ Hne]. by apply Hne. Qed.

Lemma resolveOne_addrs_err_witness :
  (addrs (resolveOne_result Demo.net "empty.test" 0%nat) ≠ [] →
   err (resolveOne_result Demo.net "empty.test" 0%nat) = None)
  ∧ (err (resolveOne_result Demo.net "empty.test" 0%nat) = None →
       addrs (resolveOne_result Demo.net "empty.test" 0%nat) ≠ []
       ∨ (lookup_addrs Demo.net "empty.test" 0%nat = []
          ∧ lookup_error Demo.net "empty.test" 0%nat = None
          ∧ addrs (resolveOne_result Demo.net "empty.test" 0%nat) = []
          ∧ ports (resolveOne_result Demo.net "empty.test" 0%nat) = [])).
Proof.
  apply (resolveOne_addrs_err Demo.net "empty.test" 0%nat).
  intros _. reflexivity.
Defined.


Lemma close_after_every_send_witness :
  ∃ s, run Demo.net Run.sched (resolveAll Run.hosts 0%nat) = Some s
       ∧ st_panic s = false
       ∧ worker_host <$> st_workers s = Run.hosts
       ∧ Forall (λ k, k = WExit (worker_host k)) (st_workers s)
       ∧ length (emitted s) = length Run.hosts
       ∧ name <$> emitted s ≡ₚ Run.hosts
       ∧ (st_cons s = CExit → st_recv s = emitted s).
Proof.
  destruct (run Demo.net Run.sched (resolveAll Run.hosts 0%nat))
    as [s|] eqn:Hrun; [|by vm_compute in Hrun].
  exists s. split; [reflexivity|].
  apply (close_after_every_send Demo.net Run.hosts 0%nat s).
  - eapply reachable_run; [apply reachable_init|exact Hrun].
  - left. vm_compute in Hrun. by injection Hrun as <-.
Defined.

(** ** More about [resolveOne] *)

Lemma lookups_probe_events t (log : list probe_rec) :
  lookups (log ≫= probe_events t) = [].
Proof.
  induction log as [|[[a p] ok] log IH]; [done|].
  rewrite bind_cons. unfold lookups in *. rewrite omap_app, IH.
  by destruct ok.
Qed.

Lemma conns_closed_probe_events t (log : list probe_rec) :
  conns_closed (log ≫= probe_events t) = true.
Proof.
  induction log as [|[[a p] ok] log IH]; [done|].
  rewrite bind_cons. by destruct ok.
Qed.

Lemma closes_probe_events t (log : list probe_rec) :
  length (filter (λ e, is_close e = true) (log ≫= probe_events t))
  = length (filter (λ r : probe_rec, r.2 = true) log).
Proof.
  induction log as [|[[a p] ok] log IH]; [done|].
  rewrite bind_cons, filter_app, length_app, IH, (filter_cons _ (a, p, ok)).
  by destruct ok.
Qed.

Lemma connected_probe_events t (log : list probe_rec) :
  length (filter (λ e, is_connected_dial e = true) (log ≫= probe_events t))
  = length (filter (λ r : probe_rec, r.2 = true) log).
Proof.
  induction log as [|[[a p] ok] log IH]; [done|].
  rewrite bind_cons, filter_app, length_app, IH, (filter_cons _ (a, p, ok)).
  by destruct ok.
Qed.

Section ResolveOneOutcomes.
Context {World error Conn : Type}.
Variable net : Net World error Conn.

Lemma probe_outcome a t p m w m' w' tr :
  probe net a t p m w = (m', w', tr) →
  ∃ ok, dial_outcome net t (a, p, ok)
        ∧ tr = probe_events t (a, p, ok) ∧ m' = mark m [(a, p, ok)].
Proof.
  unfold probe. intros (r & w1 & t1 & t2 & Hd & Hk & ->)%bind_run.
  unfold DialTimeout in Hd.
  destruct (net_DialTimeout net _ _ _ w) as [r' w1'] eqn:Hdial.
  injection Hd as <- <- <-.
  assert (dial_outcome net t (a, p, connected r')) as Hout.
  { exists w. simpl. by rewrite Hdial. }
  destruct r' as [c|e]; simpl in *.
  - apply bind_run in Hk as (? & ? & ? & ? & Hc & Hr & ->).
    injection Hc as <- <- <-. apply ret_run in Hr as (-> & -> & ->).
    by exists true.
  - apply ret_run in Hk as (-> & -> & ->). by exists false.
Qed.

Lemma probe_keys_outcome a t ks m w m' w' tr :
  for_range ks (probe net a t) m w = (m', w', tr) →
  ∃ log, Forall (dial_outcome net t) log
         ∧ log.*1 = (λ p, (a, p)) <$> ks
         ∧ tr = log ≫= probe_events t ∧ m' = mark m log.
Proof.
  revert m w tr. induction ks as [|p ks IH]; intros m w tr; simpl.
  - intros (-> & -> & ->)%ret_run. by exists [].
  - intros (m1 & w1 & t1 & t2 & Hp & Hk & ->)%bind_run.
    apply probe_outcome in Hp as (ok & Hok & -> & ->).
    apply IH in Hk as (log & Hall & Hl & -> & ->).
    exists ((a, p, ok) :: log). split_and!; try done.
    + by constructor.
    + by rewrite !fmap_cons, Hl.
Qed.

Lemma probe_all_outcome al t m w m' w' tr :
  probe_all net al t m w = (m', w', tr) →
  ∃ log, Forall (dial_outcome net t) log
         ∧ log.*1 ≡ₚ (al ≫= λ a, (λ p, (a, p)) <$> map_keys m)
         ∧ tr = log ≫= probe_events t ∧ m' = mark m log.
Proof.
  unfold probe_all. revert m w tr. induction al as [|a al IH]; intros m w tr; simpl.
  - intros (-> & -> & ->)%ret_run. by exists [].
  - intros (m1 & w1 & t1 & t2 & Hb & Hk & ->)%bind_run.
    apply bind_run in Hb as (ks & w0 & t0 & t1' & Hr & Hp & ->).
    apply range_keys_run in Hr as [Hks ->].
    apply probe_keys_outcome in Hp as (log1 & Hall1 & Hl1 & -> & ->).
    apply IH in Hk as (log2 & Hall2 & Hl2 & -> & ->).
    assert (dom (mark m log1) = dom m) as Hdom.
    { apply mark_dom. intros r Hr.
      assert (r.1 ∈ log1.*1) as Hr1 by by apply list_elem_of_fmap_2.
      rewrite Hl1 in Hr1. apply list_elem_of_fmap in Hr1 as (p & -> & Hp).
      simpl. apply map_keys_elem_of. by rewrite <- Hks. }
    exists (log1 ++ log2). split_and!.
    + by apply Forall_app.
    + rewrite fmap_app, Hl1, Hl2. unfold map_keys. rewrite Hdom.
      apply Permutation_app_tail. by rewrite Hks.
    + by rewrite bind_app.
    + by rewrite mark_app.
Qed.

Lemma resolveOne_resolved_outcome host w al w1 :
  net_LookupHost net host w = (al, None, w1) →
  ∃ log ks w',
    Forall (dial_outcome net (Second * 3)) log
    ∧ log.*1 ≡ₚ (al ≫= λ a, (λ p, (a, p)) <$> candidate_ports)
    ∧ ks ≡ₚ candidate_ports
    ∧ resolveOne net host w
      = (HostInfo host al
           (filter (λ p, map_index (mark ports_literal log) p = true) ks) None,
         w', EvLookupHost host :: (log ≫= probe_events (Second * 3))).
Proof.
  intros Hl. unfold resolveOne, bind at 1, LookupHost. rewrite Hl. simpl.
  fold ports_literal.
  destruct (bind (probe_all net al (Second * 3) ports_literal) _ w1)
    as [[hi w'] tr] eqn:Hrun.
  apply bind_run in Hrun as (m & w2 & t1 & t2 & Hp & Hk & ->).
  apply probe_all_outcome in Hp as (log & Hall & Hlog & -> & ->).
  apply bind_run in Hk as (ks & w3 & t3 & t4 & Hr & Hc & ->).
  apply range_keys_run in Hr as [Hks ->].
  apply ret_run in Hc as (-> & -> & ->).
  assert (dom (mark ports_literal log) = dom ports_literal) as Hdom.
  { apply mark_dom. intros r Hr.
    assert (r.1 ∈ log.*1) as Hr1 by by apply list_elem_of_fmap_2.
    rewrite Hlog in Hr1.
    apply list_elem_of_bind in Hr1 as (a & Hr1 & _).
    apply list_elem_of_fmap in Hr1 as (p & -> & Hp).
    simpl. by apply map_keys_elem_of. }
  exists log, ks, w3. split_and!.
  - done.
  - rewrite Hlog. apply bind_Permutation_ext.
    intros a. by rewrite ports_literal_keys.
  - rewrite Hks. unfold map_keys. rewrite Hdom. apply ports_literal_keys.
  - rewrite collect_spec. simpl. by rewrite !app_nil_r.
Qed.

(** The log of a run after a successful lookup, with what the dialler
    answered. *)
Lemma resolveOne_outcomes host w :
  lookup_error net host w = None →
  ∃ log ks,
    Forall (dial_outcome net (Second * 3)) log
    ∧ log.*1 ≡ₚ (lookup_addrs net host w ≫= λ a, (λ p, (a, p)) <$> candidate_ports)
    ∧ ks ≡ₚ candidate_ports
    ∧ ports (resolveOne_result net host w)
      = filter (λ p, map_index (mark ports_literal log) p = true) ks
    ∧ resolveOne_trace net host w
      = EvLookupHost host :: (log ≫= probe_events (Second * 3)).
Proof.
  unfold lookup_error, lookup_addrs, resolveOne_result, resolveOne_trace.
  destruct (net_LookupHost net host w) as [[al [e|]] w1] eqn:Hl; [done|].
  intros _.
  destruct (resolveOne_resolved_outcome _ _ _ _ Hl)
    as (log & ks & w' & Hall & Hlog & Hks & ->).
  by exists log, ks.
Qed.

(** On a network whose dialler answers alike in every world, a candidate
    port is open exactly when it answers on one of the addresses. *)
Lemma static_port_open host w w0 p :
  static_dial net →
  p ∈ ports (resolveOne_result net host w) ↔
  lookup_error net host w = None ∧ p ∈ candidate_ports
  ∧ ∃ a, a ∈ lookup_addrs net host w
         ∧ connected (net_DialTimeout net "tcp" (a +:+ ":" +:+ p) (Second * 3) w0).1
           = true.
Proof.
  intros Hstatic. split.
  - intros Hp.
    assert (lookup_error net host w = None) as Herr.
    { rewrite <- err_resolveOne.
      destruct (resolveOne_cases net host w)
        as [(e & _ & Hres & _)|(log & ks & _ & _ & _ & -> & _)]; [|done].
      rewrite Hres in Hp. by apply elem_of_nil in Hp. }
    destruct (resolveOne_outcomes host w Herr)
      as (log & ks & Hall & Hlog & Hks & Hports & _).
    rewrite Hports in Hp.
    apply list_elem_of_filter in Hp as [[a Ha]%map_index_mark Hpk].
    rewrite Hks in Hpk. split_and!; [done..|]. exists a.
    destruct (log_pairs _ _ _ _ _ Hlog Ha) as [Hal _]. split; [done|].
    rewrite Forall_forall in Hall. destruct (Hall _ Ha) as [w1 Hw1].
    simpl in Hw1. by rewrite (Hstatic _ w0 w1).
  - intros (Herr & Hp & a & Ha & Hconn).
    destruct (resolveOne_outcomes host w Herr)
      as (log & ks & Hall & Hlog & Hks & Hports & _).
    rewrite Hports. apply list_elem_of_filter. split; [|by rewrite Hks].
    apply map_index_mark. exists a.
    assert ((a, p) ∈ log.*1) as Hin.
    { rewrite Hlog. apply list_elem_of_bind. exists a. split; [|done].
      by apply list_elem_of_fmap_2. }
    apply list_elem_of_fmap in Hin as ([[a' p'] ok] & [= <- <-] & Hin).
    rewrite Forall_forall in Hall. destruct (Hall _ Hin) as [w1 Hw1].
    simpl in Hw1. rewrite (Hstatic _ w1 w0), Hconn in Hw1. by subst ok.
Qed.

Lemma lookups_resolveOne host w :
  lookups (resolveOne_trace net host w) = [host].
Proof.
  destruct (resolveOne_cases net host w)
    as [(e & _ & _ & ->)|(log & ks & _ & _ & _ & _ & ->)]; [done|].
  change (lookups (EvLookupHost host :: ?l)) with (host :: lookups l).
  by rewrite lookups_probe_events.
Qed.

(** X1. A result that lists an open port has an address and no error. *)
Theorem resolveOne_ports_need_addrs host w :
  ports (resolveOne_result net host w) ≠ [] →
  addrs (resolveOne_result net host w) ≠ []
  ∧ err (resolveOne_result net host w) = None.
Proof.
  intros Hne.
  destruct (ports (resolveOne_result net host w)) as [|p ps] eqn:Hp; [done|].
  assert (p ∈ ports (resolveOne_result net host w)) as Hin by (rewrite Hp; left).
  split.
  - apply open_port_answered in Hin as (a & Ha & _).
    intros Hnil. rewrite Hnil in Ha. by apply elem_of_nil in Ha.
  - destruct (resolveOne_cases net host w)
      as [(e & _ & Hres & _)|(log & ks & _ & _ & _ & -> & _)]; [|done].
    rewrite Hres in Hp. done.
Qed.

(** X2. On a network whose dialler answers alike in every world, two runs
    of [resolveOne] whose lookups return the same addresses (in any order)
    and the same error list the same open ports, up to their order: the
    iteration order of the map shows in the order of the ports only. *)
Theorem resolveOne_static_network host w w' :
  static_dial net →
  lookup_addrs net host w ≡ₚ lookup_addrs net host w' →
  lookup_error net host w = lookup_error net host w' →
  ports (resolveOne_result net host w) ≡ₚ ports (resolveOne_result net host w').
Proof.
  intros Hstatic Haddrs Herr.
  apply NoDup_Permutation; [apply ports_resolveOne_NoDup..|].
  intros p. rewrite !(static_port_open _ _ w p Hstatic), Herr.
  by setoid_rewrite Haddrs.
Qed.

(** X3. [resolveOne] looks its host up once, before anything else, and
    looks nothing else up; every dial that connects is followed at once by
    the close of the connection, so that there are as many closes as
    connected dials. *)
Theorem resolveOne_closes_connections host w :
  (∃ rest, resolveOne_trace net host w = EvLookupHost host :: rest)
  ∧ lookups (resolveOne_trace net host w) = [host]
  ∧ conns_closed (resolveOne_trace net host w) = true
  ∧ length (filter (λ e, is_close e = true) (resolveOne_trace net host w))
    = length (filter (λ e, is_connected_dial e = true)
                (resolveOne_trace net host w)).
Proof.
  pose proof (lookups_resolveOne host w) as Hlook.
  destruct (resolveOne_cases net host w)
    as [(e & _ & _ & Htr)|(log & ks & _ & _ & _ & _ & Htr)]; rewrite Htr in *.
  { split_and!; [by eexists|done..]. }
  split_and!.
  - by eexists.
  - done.
  - change (conns_closed (EvLookupHost host :: ?l)) with (conns_closed l).
    apply conns_closed_probe_events.
  - rewrite !filter_cons_False by done.
    by rewrite closes_probe_events, connected_probe_events.
Qed.
End ResolveOneOutcomes.

(** ** More about [resolveAll] *)

Section ResolveAllMore.
Context {World error Conn : Type}.
Variable net : Net World error Conn.

Lemma reachable_chan_cap (s0 s : state World error) :
  reachable net s0 s →
  (length (st_chan s0) ≤ rc_cap)%nat → (length (st_chan s) ≤ rc_cap)%nat.
Proof.
  intros Hreach H0. induction Hreach as [|s l s' _ IH Hstep]; [done|].
  unfold step in Hstep. destruct (st_panic s); [done|].
  destruct l as [|i|].
  - unfold disp_step in Hstep.
    repeat case_match; try done; by injection Hstep as <-.
  - unfold worker_step in Hstep.
    destruct (st_workers s !! i) as [k|]; [|done].
    destruct k as [h|h hi|h|h]; [| | |done].
    + destruct (resolveOne net h (st_world s)) as [[hi w'] tr].
      by injection Hstep as <-.
    + destruct (st_closed s); [by injection Hstep as <-|].
      case_decide; [|done]. injection Hstep as <-. simpl.
      rewrite length_app. simpl. lia.
    + case_decide; by injection Hstep as <-.
  - unfold cons_step in Hstep. destruct (st_cons s); [|done].
    destruct (st_chan s) as [|hi rest] eqn:Hch.
    + destruct (st_closed s); [|done]. injection Hstep as <-. simpl. lia.
    + injection Hstep as <-. simpl in *. lia.
Qed.

Lemma live_count_le (ws : list (worker error)) :
  (live_count ws ≤ length ws)%nat.
Proof.
  induction ws as [|k ws IH]; [done|].
  change (live_count (k :: ws)) with (live k + live_count ws)%nat.
  destruct k; simpl; lia.
Qed.

Lemma length_sent_hosts_lt (ws : list (worker error)) i k :
  ws !! i = Some k → sent k = None → (length (sent_hosts ws) < length ws)%nat.
Proof.
  intros Hi Hk. apply (insert_split _ _ _ k) in Hi as (l1 & l2 & -> & _).
  rewrite sent_hosts_app, !length_app.
  change (sent_hosts (k :: l2))
    with (match sent k with Some h => h :: sent_hosts l2 | None => sent_hosts l2 end).
  rewrite Hk. simpl.
  pose proof (length_sent_hosts l1). pose proof (length_sent_hosts l2). lia.
Qed.

Lemma inv_lengths hosts (s : state World error) :
  inv net hosts s →
  (length (st_workers s) + length (pending (st_disp s)) = length hosts)%nat
  ∧ length (emitted s) = length (sent_hosts (st_workers s)).
Proof.
  intros Hinv. split.
  - by rewrite <- (inv_hosts _ _ _ Hinv), length_app, length_fmap.
  - unfold emitted. by rewrite <- (length_fmap name), (inv_sent _ _ _ Hinv).
Qed.





(** X4. With no more hosts than the channel has room for, no send ever
    waits: in every state of a run a worker holding a result can put it
    into the channel at once, and the channel is not closed under it. *)
Theorem send_never_blocks hosts w s i h hi :
  (length hosts ≤ rc_cap)%nat →
  reachable net (resolveAll hosts w) s →
  st_workers s !! i = Some (WSend h hi) →
  ∃ s', step net (LWorker i) s = Some s'
        ∧ st_chan s' = st_chan s ++ [hi]
        ∧ st_panic s' = false.
Proof.
  intros Hcap Hinv%resolveAll_inv Hi.
  pose proof (live_count_pos _ _ _ Hi eq_refl) as Hpos.
  destruct (inv_lengths hosts s Hinv) as [Hlen Hem].
  pose proof (length_sent_hosts_lt _ _ _ Hi eq_refl) as Hlt.
  destruct Hinv as [Hp Hh Hwg Hc Hj Hs Hw Hr Hcons].
  assert (st_closed s = false) as Hcl.
  { rewrite Hc. destruct (st_disp s); try done. specialize (Hj eq_refl). lia. }
  unfold emitted in Hem. rewrite length_app in Hem.
  unfold step, worker_step. rewrite Hp, Hi, Hcl.
  rewrite decide_True by lia. eexists. split_and!; [done|done|]. by simpl.
Qed.

(** X5. In every state of a run the channel holds no more results than its
    capacity and than there are hosts, the WaitGroup counter lies between
    0 and the number of hosts, and no more workers have been started than
    there are hosts. *)
Theorem resolveAll_bounds hosts w s :
  reachable net (resolveAll hosts w) s →
  (length (st_chan s) ≤ rc_cap)%nat
  ∧ (length (st_chan s) ≤ length hosts)%nat
  ∧ 0 ≤ st_wg s ≤ Z.of_nat (length hosts)
  ∧ (length (st_workers s) ≤ length hosts)%nat.
Proof.
  intros Hreach. pose proof (resolveAll_inv _ _ _ _ Hreach) as Hinv.
  destruct (inv_lengths hosts s Hinv) as [Hlen _].
  pose proof (emitted_bound net hosts s Hinv) as Hem.
  unfold emitted in Hem. rewrite length_app in Hem.
  pose proof (live_count_le (st_workers s)) as Hlive.
  pose proof (inv_wg _ _ _ Hinv) as Hwg.
  split_and!; try lia.
  - apply (reachable_chan_cap _ _ Hreach). simpl. lia.
  - destruct (st_disp s); simpl in *; lia.
  - destruct (st_disp s); simpl in *; lia.
Qed.

End ResolveAllMore.

(** ** Reports *)

Lemma candidate_sublists (l : list string) :
  NoDup l → l ⊆ candidate_ports →
  l ∈ [[]; ["80"]; ["443"]; ["80"; "443"]; ["443"; "80"]].
Proof.
  intros Hnd Hsub.
  assert (∀ x, x ∈ l → x = "80" ∨ x = "443") as Hin.
  { intros x Hx. by apply candidate_ports_cases, Hsub. }
  destruct l as [|x [|y [|z l]]].
  - left.
  - assert (x = "80" ∨ x = "443") as [-> | ->] by (apply Hin; left).
    + right; left.
    + do 2 right; left.
  - apply NoDup_cons in Hnd as [Hxy _].
    assert (x ≠ y) as Hne by (intros ->; apply Hxy; left).
    assert (x = "80" ∨ x = "443") as [-> | ->] by (apply Hin; left);
      assert (y = "80" ∨ y = "443") as [-> | ->] by (apply Hin; right; left);
      try done.
    + do 3 right; left.
    + do 4 right; left.
  - apply NoDup_cons in Hnd as [Hx Hnd]. apply NoDup_cons in Hnd as [Hy _].
    assert (x ≠ y) as Hxy by (intros ->; apply Hx; left).
    assert (x ≠ z) as Hxz by (intros ->; apply Hx; right; left).
    assert (y ≠ z) as Hyz by (intros ->; apply Hy; left).
    assert (x = "80" ∨ x = "443") as [-> | ->] by (apply Hin; left);
      assert (y = "80" ∨ y = "443") as [-> | ->] by (apply Hin; right; left);
      assert (z = "80" ∨ z = "443") as [-> | ->]
        by (apply Hin; right; right; left);
      done.
Qed.

Section Reports.
Context {World error Conn : Type}.
Variable net : Net World error Conn.
Variable Error : error → string.

Lemma connected_dial_opens host w e :
  e ∈ resolveOne_trace net host w → is_connected_dial e = true →
  ports (resolveOne_result net host w) ≠ [].
Proof.
  intros He Hc. destruct e as [|nw s t [|]|]; try done.
  destruct (trace_dials net _ _ _ _ _ _ He) as (-> & -> & a & p & _ & Hp & ->).
  pose proof (answered_port_open net host w p a Hp He) as Hin.
  intros Hnil. rewrite Hnil in Hin. by apply elem_of_nil in Hin.
Qed.

(** X7. The report of a host whose lookup succeeded is its name, its
    addresses joined by ", ", and one of five pairs of a status and a ports
    line: the ports come in either order. *)
Theorem report_of_resolved host w :
  err (resolveOne_result net host w) = None →
  ∃ status portsInfo,
    (status, portsInfo)
      ∈ [("server may be down", "no known HTTP(S) ports listening");
         ("server is up", "80"); ("server is up", "443");
         ("server is up", "80, 443"); ("server is up", "443, 80")]
    ∧ hostInfo_String Error (resolveOne_result net host w)
      = "name:" +:+ tab +:+ host +:+ newline
        +:+ "ips:" +:+ tab +:+ Join (lookup_addrs net host w) ", " +:+ newline
        +:+ "status:" +:+ tab +:+ status +:+ newline
        +:+ "ports:" +:+ tab +:+ portsInfo +:+ newline.
Proof.
  intros Herr. unfold hostInfo_String.
  rewrite Herr, name_resolveOne, addrs_resolveOne.
  pose proof (candidate_sublists _ (ports_resolveOne_NoDup net host w)
                (ports_resolveOne_candidates net host w)) as Hports.
  repeat (apply elem_of_cons in Hports as [->|Hports]);
    [..|by apply elem_of_nil in Hports]; simpl; eexists _, _;
    (split; [|reflexivity]).
  - left.
  - right; left.
  - do 2 right; left.
  - do 3 right; left.
  - do 4 right; left.
Qed.

(** X8. After a successful lookup the report says "server may be down" with
    no ports when no dial connected, and "server is up" with the ports
    joined by ", " as soon as one dial connected. *)
Theorem report_status host w :
  err (resolveOne_result net host w) = None →
  (Forall (λ e, is_connected_dial e = false) (resolveOne_trace net host w) →
   hostInfo_String Error (resolveOne_result net host w)
   = "name:" +:+ tab +:+ host +:+ newline
     +:+ "ips:" +:+ tab +:+ Join (lookup_addrs net host w) ", " +:+ newline
     +:+ "status:" +:+ tab +:+ "server may be down" +:+ newline
     +:+ "ports:" +:+ tab +:+ "no known HTTP(S) ports listening" +:+ newline)
  ∧ (Exists (λ e, is_connected_dial e = true) (resolveOne_trace net host w) →
     ports (resolveOne_result net host w) ≠ []
     ∧ hostInfo_String Error (resolveOne_result net host w)
       = "name:" +:+ tab +:+ host +:+ newline
         +:+ "ips:" +:+ tab +:+ Join (lookup_addrs net host w) ", " +:+ newline
         +:+ "status:" +:+ tab +:+ "server is up" +:+ newline
         +:+ "ports:" +:+ tab
         +:+ Join (ports (resolveOne_result net host w)) ", " +:+ newline).
Proof.
  intros Herr. unfold hostInfo_String.
  rewrite Herr, name_resolveOne, addrs_resolveOne. split.
  - intros Hnone.
    destruct (ports (resolveOne_result net host w)) as [|p ps] eqn:Hp; [done|].
    assert (p ∈ ports (resolveOne_result net host w)) as Hin by (rewrite Hp; left).
    apply open_port_answered in Hin as (a & _ & Hev).
    rewrite Forall_forall in Hnone. by specialize (Hnone _ Hev).
  - intros (e & He & Hc)%Exists_exists.
    pose proof (connected_dial_opens host w e He Hc) as Hne. split; [done|].
    destruct (ports (resolveOne_result net host w)); done.
Qed.
End Reports.

(** ** parseInfile and main *)

Section MainFacts.
Context {World error Conn : Type}.
Variable net : Net World error Conn.
Variable os : OS error.
Variable Error : error → string.

Lemma scan_lines_filter acc (tokens : list string) :
  foldl (scan_line os) acc tokens
  = acc ++ filter kept (bytes_TrimSpace os <$> tokens).
Proof.
  revert acc. induction tokens as [|t tokens IH]; intros acc.
  - by rewrite app_nil_r.
  - change (foldl (scan_line os) acc (t :: tokens))
      with (foldl (scan_line os) (scan_line os acc t) tokens).
    rewrite IH, fmap_cons, filter_cons. unfold scan_line.
    destruct (decide (kept (bytes_TrimSpace os t))) as [[H1 H2]|Hn].
    + rewrite !bool_decide_eq_true_2 by done. simpl. by rewrite <- app_assoc.
    + destruct (bool_decide (String.length _ ≠ 0%nat)) eqn:E1; [|done].
      destruct (bool_decide (String.get 0 _ ≠ Some _)) eqn:E2; [|done].
      destruct Hn. split; by eapply bool_decide_eq_true_1.
Qed.

Lemma parseInfile_ok file f :
  os_Open os file = inl f → scan_err f = None →
  parseInfile os file = (filter kept (bytes_TrimSpace os <$> scan_tokens f), None).
Proof.
  intros Ho He. unfold parseInfile. by rewrite Ho, He, scan_lines_filter.
Qed.

(** X9. [parseInfile] never returns hosts along with an error: when the
    file cannot be opened or the scan ends in an error the list is empty,
    even if lines had been read.  Otherwise the hosts are the trimmed
    lines, in the order of the file, that are neither empty nor begin with
    '#'. *)
Theorem parseInfile_hosts file :
  ((parseInfile os file).2 ≠ None → (parseInfile os file).1 = [])
  ∧ Forall kept (parseInfile os file).1
  ∧ (∀ f, os_Open os file = inl f →
       (parseInfile os file).2 = scan_err f
       ∧ (scan_err f = None →
            (parseInfile os file).1
            = filter kept (bytes_TrimSpace os <$> scan_tokens f))).
Proof.
  unfold parseInfile. destruct (os_Open os file) as [f|e] eqn:Ho.
  - rewrite scan_lines_filter. simpl.
    destruct (scan_err f) as [e|] eqn:He; simpl.
    + split_and!; [done|constructor|]. by intros ? [= <-]; rewrite He.
    + split_and!; [done| |].
      * apply Forall_forall. by intros h [? _]%list_elem_of_filter.
      * by intros ? [= <-]; rewrite He.
  - simpl. split_and!; [done|constructor|done].
Qed.

(** X10. Writing the hosts [parseInfile] returns one per line and parsing
    that file gives the same hosts again, as long as trimming a trimmed
    line changes nothing. *)
Theorem parseInfile_reparse file file' f :
  os_Open os file = inl f → scan_err f = None →
  Forall (λ t, bytes_TrimSpace os (bytes_TrimSpace os t) = bytes_TrimSpace os t)
         (scan_tokens f) →
  os_Open os file'
  = inl {| scan_tokens := (parseInfile os file).1; scan_err := None |} →
  parseInfile os file' = parseInfile os file.
Proof.
  intros Ho He Hidem Ho'.
  rewrite (parseInfile_ok file' _ Ho' eq_refl), (parseInfile_ok file f Ho He).
  simpl. f_equal.
  induction Hidem as [|t tokens Ht _ IH]; [done|].
  rewrite fmap_cons, (filter_cons _ (bytes_TrimSpace os t)).
  destruct (decide (kept (bytes_TrimSpace os t))) as [Hk|Hk]; [|done].
  rewrite fmap_cons, filter_cons, Ht, decide_True by done. by rewrite IH.
Qed.

(** X11. When [main] gets to its loop, the file gave at least one host;
    some run leads to the end of the loop, and whenever the loop has ended
    [main] has printed exactly one report for every host of the file. *)
Theorem main_reports infile w s0 :
  main os Error infile w = Started s0 →
  ∃ hosts,
    parseInfile os infile = (hosts, None) ∧ hosts ≠ [] ∧ infile ≠ ""
    ∧ (∃ sched s, run net sched s0 = Some s ∧ st_cons s = CExit)
    ∧ (∀ s, reachable net s0 s → st_cons s = CExit →
         length (stdout Error s) = length hosts
         ∧ name <$> st_recv s ≡ₚ hosts
         ∧ stdout Error s
           = (λ r, hostInfo_String Error r +:+ newline) <$> st_recv s).
Proof.
  unfold main. case_bool_decide as Hin; [done|].
  destruct (parseInfile os infile) as [hosts [e|]] eqn:Hparse; [done|].
  case_bool_decide as Hlen; [done|]. intros [= <-].
  exists hosts. split_and!; [done| |done| |].
  - by intros ->.
  - apply (run_to_exit net hosts), inv_init.
  - intros s Hinv%resolveAll_inv Hex.
    destruct (inv_cons _ _ _ Hinv Hex) as [Hcl Hch].
    destruct (closed_all_sent net hosts s Hinv Hcl) as (_ & _ & Hperm).
    unfold emitted in Hperm. rewrite Hch, app_nil_r in Hperm.
    split_and!; [|done..].
    unfold stdout. by rewrite length_fmap, <- (length_fmap name), Hperm.
Qed.

(** X12. A file with nothing but blank lines and comment lines (also
    comments after leading white space) ends [main] with
    "empty hosts file" before any host is checked. *)
Theorem main_empty_file infile (w : World) f :
  infile ≠ "" →
  os_Open os infile = inl f → scan_err f = None →
  Forall (λ t, ¬ kept (bytes_TrimSpace os t)) (scan_tokens f) →
  main os Error infile w = Fatal "empty hosts file".
Proof.
  intros Hin Ho He Hnone. unfold main.
  rewrite bool_decide_eq_false_2 by done.
  rewrite (parseInfile_ok infile f Ho He).
  rewrite filter_none; [done|].
  intros b (t & -> & Ht)%list_elem_of_fmap.
  rewrite Forall_forall in Hnone. by apply Hnone.
Qed.
End MainFacts.

(** ** The added properties on the example network and file system *)

Example parseInfile_hosts_file :
  parseInfile DemoOS.os "hosts" = (["localhost"; "nope"], None).
Proof. by vm_compute. Qed.

Example parseInfile_missing_file :
  parseInfile DemoOS.os "nowhere" = ([], Some Demo.NoSuchHost).
Proof. by vm_compute. Qed.

Example report_nope :
  hostInfo_String DemoOS.Error (resolveOne_result Demo.net "nope" 0%nat)
  = "name:" +:+ tab +:+ "nope" +:+ newline
    +:+ "error:" +:+ tab +:+ "could not resolve: no such host".
Proof. by vm_compute. Qed.

Lemma resolveOne_ports_need_addrs_witness :
  addrs (resolveOne_result Demo.net "localhost" 0%nat) ≠ []
  ∧ err (resolveOne_result Demo.net "localhost" 0%nat) = None.
Proof.
  apply (resolveOne_ports_need_addrs Demo.net "localhost" 0%nat).
  vm_compute. discriminate.
Defined.

Lemma resolveOne_static_network_witness :
  ports (resolveOne_result Demo.net "localhost" 0%nat)
  ≡ₚ ports (resolveOne_result Demo.net "localhost" 1%nat).
Proof.
  apply (resolveOne_static_network Demo.net "localhost" 0%nat 1%nat).
  - intros a w1 w2. unfold Demo.net, Demo.dial. simpl.
    destruct (String.eqb a "127.0.0.1:443"); [reflexivity|].
    destruct (String.eqb a "::1:443"); reflexivity.
  - reflexivity.
  - reflexivity.
Defined.

Lemma send_never_blocks_witness :
  ∃ s hi,
    run Demo.net [LDisp; LDisp; LWorker 0] (resolveAll Run.hosts 0%nat) = Some s
    ∧ st_workers s !! 0%nat = Some (WSend "localhost" hi)
    ∧ ∃ s', step Demo.net (LWorker 0) s = Some s'
            ∧ st_chan s' = st_chan s ++ [hi]
            ∧ st_panic s' = false.
Proof.
  destruct (run Demo.net [LDisp; LDisp; LWorker 0] (resolveAll Run.hosts 0%nat))
    as [s|] eqn:Hrun; [|by vm_compute in Hrun].
  assert (st_workers s !! 0%nat
          = Some (WSend "localhost"
                    (HostInfo "localhost" ["::1"; "127.0.0.1"] ["443"] None)))
    as Hi.
  { vm_compute in Hrun. by injection Hrun as <-. }
  exists s, (HostInfo "localhost" ["::1"; "127.0.0.1"] ["443"] None).
  split; [reflexivity|]. split; [exact Hi|].
  apply (send_never_blocks Demo.net Run.hosts 0%nat s 0%nat "localhost").
  - unfold rc_cap. rewrite Z.shiftl_1_l. simpl. lia.
  - eapply reachable_run; [apply reachable_init|exact Hrun].
  - exact Hi.
Defined.

Lemma resolveAll_bounds_witness :
  ∃ s, run Demo.net Run.sched (resolveAll Run.hosts 0%nat) = Some s
       ∧ (length (st_chan s) ≤ rc_cap)%nat
       ∧ (length (st_chan s) ≤ length Run.hosts)%nat
       ∧ 0 ≤ st_wg s ≤ Z.of_nat (length Run.hosts)
       ∧ (length (st_workers s) ≤ length Run.hosts)%nat.
Proof.
  destruct (run Demo.net Run.sched (resolveAll Run.hosts 0%nat))
    as [s|] eqn:Hrun; [|by vm_compute in Hrun].
  exists s. split; [reflexivity|].
  apply (resolveAll_bounds Demo.net Run.hosts 0%nat s).
  eapply reachable_run; [apply reachable_init|exact Hrun].
Defined.


Lemma report_of_resolved_witness :
  ∃ status portsInfo,
    (status, portsInfo)
      ∈ [("server may be down", "no known HTTP(S) ports listening");
         ("server is up", "80"); ("server is up", "443");
         ("server is up", "80, 443"); ("server is up", "443, 80")]
    ∧ hostInfo_String DemoOS.Error (resolveOne_result Demo.net "localhost" 0%nat)
      = "name:" +:+ tab +:+ "localhost" +:+ newline
        +:+ "ips:" +:+ tab
        +:+ Join (lookup_addrs Demo.net "localhost" 0%nat) ", " +:+ newline
        +:+ "status:" +:+ tab +:+ status +:+ newline
        +:+ "ports:" +:+ tab +:+ portsInfo +:+ newline.
Proof.
  apply (report_of_resolved Demo.net DemoOS.Error "localhost" 0%nat).
  reflexivity.
Defined.

Lemma report_status_witness :
  (Forall (λ e, is_connected_dial e = false)
     (resolveOne_trace Demo.net "localhost" 0%nat) →
   hostInfo_String DemoOS.Error (resolveOne_result Demo.net "localhost" 0%nat)
   = "name:" +:+ tab +:+ "localhost" +:+ newline
     +:+ "ips:" +:+ tab
     +:+ Join (lookup_addrs Demo.net "localhost" 0%nat) ", " +:+ newline
     +:+ "status:" +:+ tab +:+ "server may be down" +:+ newline
     +:+ "ports:" +:+ tab +:+ "no known HTTP(S) ports listening" +:+ newline)
  ∧ (Exists (λ e, is_connected_dial e = true)
       (resolveOne_trace Demo.net "localhost" 0%nat) →
     ports (resolveOne_result Demo.net "localhost" 0%nat) ≠ []
     ∧ hostInfo_String DemoOS.Error (resolveOne_result Demo.net "localhost" 0%nat)
       = "name:" +:+ tab +:+ "localhost" +:+ newline
         +:+ "ips:" +:+ tab
         +:+ Join (lookup_addrs Demo.net "localhost" 0%nat) ", " +:+ newline
         +:+ "status:" +:+ tab +:+ "server is up" +:+ newline
         +:+ "ports:" +:+ tab
         +:+ Join (ports (resolveOne_result Demo.net "localhost" 0%nat)) ", "
         +:+ newline).
Proof.
  apply (report_status Demo.net DemoOS.Error "localhost" 0%nat).
  reflexivity.
Defined.

Lemma parseInfile_reparse_witness :
  parseInfile DemoOS.os "clean" = parseInfile DemoOS.os "hosts".
Proof.
  apply (parseInfile_reparse DemoOS.os "hosts" "clean" DemoOS.hosts_file).
  - reflexivity.
  - reflexivity.
  - repeat constructor.
  - reflexivity.
Defined.

Lemma main_reports_witness :
  ∃ hosts,
    parseInfile DemoOS.os "hosts" = (hosts, None) ∧ hosts ≠ [] ∧ "hosts" ≠ ""
    ∧ (∃ sched s, run Demo.net sched (resolveAll Run.hosts 0%nat) = Some s
                  ∧ st_cons s = CExit)
    ∧ (∀ s, reachable Demo.net (resolveAll Run.hosts 0%nat) s →
         st_cons s = CExit →
         length (stdout DemoOS.Error s) = length hosts
         ∧ name <$> st_recv s ≡ₚ hosts
         ∧ stdout DemoOS.Error s
           = (λ r, hostInfo_String DemoOS.Error r +:+ newline) <$> st_recv s).
Proof.
  apply (main_reports Demo.net DemoOS.os DemoOS.Error "hosts" 0%nat).
  reflexivity.
Defined.

Lemma main_empty_file_witness :
  main DemoOS.os DemoOS.Error "comments" 0%nat = Fatal "empty hosts file".
Proof.
  apply (main_empty_file DemoOS.os DemoOS.Error "comments" 0%nat
           DemoOS.comments_file).
  - discriminate.
  - reflexivity.
  - reflexivity.
  - repeat constructor; vm_compute; intros [H1 H2]; contradiction.
Defined.

Section ResolveAllReader.
Context {World error Conn : Type}.
Variable net : Net World error Conn.

End ResolveAllReader.

